(** * Personalized GitHub Radar: the analysis pipeline

    A shallow embedding of the analysis pipeline of the radar
    (language filter, content enricher, smart analyzer and the two
    orchestrators), followed by the properties of the pipeline.

    Conventions of the embedding.
    - A JavaScript string is a [string] (a sequence of 8-bit characters);
      [toLowerCase] acts on the ASCII letters.
    - A JavaScript number is a [Z]; the length of an array is a [nat].
    - A property that may be missing from an object (or be [null] or
      [undefined]) is an [option]; the truthiness tests of the source are
      written out ([truthy_str], [js_or_Z] ...).
    - A function that may throw returns a [completion]; code that talks to
      the outside world or writes to the error log threads a [state]
      through the monad [M].
    - The informational [log] calls and the delay between two batches are
      left out; the [logError] calls are kept as the error log. *)

From Stdlib Require Import ZArith Ascii String Lia Sorting.Sorted.
From stdpp Require Import base list strings pretty gmap.

#[local] Set Warnings "-clear-no-such-hyp".
#[local] Open Scope string_scope.
#[local] Open Scope list_scope.
#[local] Open Scope Z_scope.

(** ** JavaScript values and helpers *)

Module Js.

Inductive exn :=
| SyntaxError (message : string)
| TypeError (message : string)
| Error (message : string)
| HttpError (status : option Z) (message : string).

Definition message_of (e : exn) : string :=
  match e with
  | SyntaxError m | TypeError m | Error m | HttpError _ m => m
  end.

(** [error.response?.status] *)
Definition response_status (e : exn) : option Z :=
  match e with
  | HttpError st _ => st
  | _ => None
  end.

Inductive completion (A : Type) :=
| Return (a : A)
| Throw (e : exn).
Arguments Return {A} a.
Arguments Throw {A} e.

#[export] Instance completion_ret : MRet completion := λ A a, Return a.
#[export] Instance completion_bind : MBind completion := λ A B k c,
  match c with
  | Return a => k a
  | Throw e => Throw e
  end.

Definition returns {A} (c : completion A) : bool :=
  match c with Return _ => true | Throw _ => false end.

(** [String.prototype.toLowerCase] on the ASCII range. *)
Definition lower_ascii (c : ascii) : ascii :=
  let n := nat_of_ascii c in
  if andb (Nat.leb 65 n) (Nat.leb n 90) then ascii_of_nat (n + 32)%nat else c.

Fixpoint toLowerCase (s : string) : string :=
  match s with
  | EmptyString => EmptyString
  | String c s' => String (lower_ascii c) (toLowerCase s')
  end.

(** A string is truthy when it is not empty. *)
Definition truthy_str (s : string) : bool :=
  match s with EmptyString => false | _ => true end.

(** [o || d] for an optional string. *)
Definition or_str (o : option string) (d : string) : string :=
  match o with
  | Some s => if truthy_str s then s else d
  | None => d
  end.

(** [a || b] for optional numbers: [0] and [undefined] are falsy. *)
Definition js_or_Z (a b : option Z) : option Z :=
  match a with
  | Some x => if x =? 0 then b else Some x
  | None => b
  end.

(** [Array.prototype.join]. *)
Fixpoint join (sep : string) (l : list string) : string :=
  match l with
  | [] => ""
  | [x] => x
  | x :: l' => x +:+ sep +:+ join sep l'
  end.

(** [String.prototype.split] on a one-character separator: [cur] is the
    piece being read. *)
Fixpoint split_go (sep : ascii) (cur : string) (s : string) : list string :=
  match s with
  | EmptyString => [String.rev cur]
  | String c s' =>
      if Ascii.eqb c sep then String.rev cur :: split_go sep "" s'
      else split_go sep (String c cur) s'
  end.

Definition split (sep : ascii) (s : string) : list string := split_go sep "" s.

(** [String.prototype.substring(0, n)]. *)
Fixpoint substring0 (n : nat) (s : string) : string :=
  match n, s with
  | S n', String c s' => String c (substring0 n' s')
  | _, _ => ""
  end.

(** [Array.prototype.includes] on strings. *)
Definition includes (l : list string) (x : string) : bool :=
  bool_decide (x ∈ l).

(** [[...new Set(l)]]: the elements of [l] in the order of their first
    occurrence; [seen] is the set built so far. *)
Fixpoint set_spread_go (seen : list string) (l : list string) : list string :=
  match l with
  | [] => []
  | x :: l' =>
      if includes seen x then set_spread_go seen l'
      else x :: set_spread_go (x :: seen) l'
  end.

Definition set_spread (l : list string) : list string := set_spread_go [] l.

End Js.

Export Js.

(** ** The regular-expression engine

    [new RegExp(source, 'gi')] followed by
    [(text.match(regex) || []).length] is a service of the platform.  The
    analyzer is written against this interface: the number of matches, or
    the exception thrown by the constructor.  The number is the length of
    an array, a natural number. *)

Class RegExpEngine := {
  match_count : string → string → completion nat
}.

(** The engine itself belongs to the platform, not to the radar.  What
    follows is a model of it on a fragment of the ECMAScript pattern
    language (flags [g] and [i], no [u]): pattern characters, [.], the
    assertions [^ $ \b \B], the class escapes [\d \D \w \W \s \S],
    escaped syntax characters, the quantifiers [* + ?] (greedy or lazy) on
    one atom, and [|].  Groups, character classes, braces and the other
    escapes are outside the fragment. *)

Module EcmaFragment.

Inductive char_class := Digit | Word | Space.

Inductive atom :=
| AChar (c : ascii)
| AAny
| AClass (k : char_class) (negated : bool).

Inductive assertion := LineStart | LineEnd | WordBoundary | NotWordBoundary.

Inductive quantifier :=
| QOne
| QStar (greedy : bool)
| QPlus (greedy : bool)
| QOpt (greedy : bool).

Inductive term :=
| TAssert (a : assertion)
| TAtom (a : atom) (q : quantifier).

Definition alternative := list term.
Definition disjunction := list alternative.

(** *** Parsing *)

Inductive parsed :=
| Parsed (d : disjunction)
| Invalid (message : string)
| Outside.

Definition is_syntax_char (c : ascii) : bool :=
  bool_decide (c ∈ list_ascii_of_string "^$\.*+?()[]{}|").

Definition escape_atom (c : ascii) : option term :=
  if Ascii.eqb c "b" then Some (TAssert WordBoundary)
  else if Ascii.eqb c "B" then Some (TAssert NotWordBoundary)
  else if Ascii.eqb c "d" then Some (TAtom (AClass Digit false) QOne)
  else if Ascii.eqb c "D" then Some (TAtom (AClass Digit true) QOne)
  else if Ascii.eqb c "w" then Some (TAtom (AClass Word false) QOne)
  else if Ascii.eqb c "W" then Some (TAtom (AClass Word true) QOne)
  else if Ascii.eqb c "s" then Some (TAtom (AClass Space false) QOne)
  else if Ascii.eqb c "S" then Some (TAtom (AClass Space true) QOne)
  else if is_syntax_char c || Ascii.eqb c "/" then Some (TAtom (AChar c) QOne)
  else None.

Definition quantifier_of (c : ascii) : option (bool → quantifier) :=
  if Ascii.eqb c "*" then Some QStar
  else if Ascii.eqb c "+" then Some QPlus
  else if Ascii.eqb c "?" then Some QOpt
  else None.

(** Attach a quantifier to the last term read ([rev_cur] holds the
    terms of the current alternative, last one first). *)
Definition quantify (q : bool → quantifier) (rev_cur : list term) : option (list term) :=
  match rev_cur with
  | TAtom a QOne :: ts => Some (TAtom a (q true) :: ts)
  | _ => None
  end.

Definition make_lazy (rev_cur : list term) : option (list term) :=
  match rev_cur with
  | TAtom a (QStar true) :: ts => Some (TAtom a (QStar false) :: ts)
  | TAtom a (QPlus true) :: ts => Some (TAtom a (QPlus false) :: ts)
  | TAtom a (QOpt true) :: ts => Some (TAtom a (QOpt false) :: ts)
  | _ => None
  end.

(** [quantifiable] is true right after an atom, [lazy_ok] right after a
    quantifier. *)
Fixpoint parse_go (s : list ascii) (rev_alts : list alternative)
    (rev_cur : list term) (quantifiable lazy_ok : bool) : parsed :=
  match s with
  | [] => Parsed (rev (rev rev_cur :: rev_alts))
  | c :: s' =>
      if Ascii.eqb c "\" then
        match s' with
        | [] => Invalid "\ at end of pattern"
        | e :: s'' =>
            match escape_atom e with
            | Some (TAssert a) => parse_go s'' rev_alts (TAssert a :: rev_cur) false false
            | Some t => parse_go s'' rev_alts (t :: rev_cur) true false
            | None => Outside
            end
        end
      else if Ascii.eqb c "|" then
        parse_go s' (rev rev_cur :: rev_alts) [] false false
      else if Ascii.eqb c "^" then
        parse_go s' rev_alts (TAssert LineStart :: rev_cur) false false
      else if Ascii.eqb c "$" then
        parse_go s' rev_alts (TAssert LineEnd :: rev_cur) false false
      else if Ascii.eqb c "." then
        parse_go s' rev_alts (TAtom AAny QOne :: rev_cur) true false
      else
        match quantifier_of c with
        | Some q =>
            if quantifiable then
              match quantify q rev_cur with
              | Some ts => parse_go s' rev_alts ts false true
              | None => Invalid "Nothing to repeat"
              end
            else if lazy_ok && Ascii.eqb c "?" then
              match make_lazy rev_cur with
              | Some ts => parse_go s' rev_alts ts false false
              | None => Invalid "Nothing to repeat"
              end
            else Invalid "Nothing to repeat"
        | None =>
            if bool_decide (c ∈ list_ascii_of_string "()[{") then Outside
            else parse_go s' rev_alts (TAtom (AChar c) QOne :: rev_cur) true false
        end
  end.

Definition parse (source : string) : parsed :=
  parse_go (list_ascii_of_string source) [] [] false false.

(** *** Matching *)

Definition in_range (lo hi : nat) (c : ascii) : bool :=
  let n := nat_of_ascii c in Nat.leb lo n && Nat.leb n hi.

Definition is_digit (c : ascii) : bool := in_range 48 57 c.

Definition is_word_char (c : ascii) : bool :=
  in_range 97 122 c || in_range 65 90 c || is_digit c || Ascii.eqb c "_".

Definition is_white_space (c : ascii) : bool :=
  bool_decide (nat_of_ascii c ∈ [9; 10; 11; 12; 13; 32; 160]%nat).

Definition is_line_terminator (c : ascii) : bool :=
  bool_decide (nat_of_ascii c ∈ [10; 13]%nat).

(** With the [i] flag two characters match when they have the same
    canonical form. *)
Definition same_char_i (c d : ascii) : bool :=
  Ascii.eqb (lower_ascii c) (lower_ascii d).

Definition atom_matches (a : atom) (c : ascii) : bool :=
  match a with
  | AChar p => same_char_i p c
  | AAny => negb (is_line_terminator c)
  | AClass Digit neg => xorb neg (is_digit c)
  | AClass Word neg => xorb neg (is_word_char c)
  | AClass Space neg => xorb neg (is_white_space c)
  end.

Definition word_before (prev : option ascii) : bool :=
  match prev with Some c => is_word_char c | None => false end.

Definition word_after (s : list ascii) : bool :=
  match s with c :: _ => is_word_char c | [] => false end.

Definition assertion_holds (a : assertion) (prev : option ascii) (s : list ascii) : bool :=
  match a with
  | LineStart => match prev with None => true | Some _ => false end
  | LineEnd => match s with [] => true | _ => false end
  | WordBoundary => xorb (word_before prev) (word_after s)
  | NotWordBoundary => negb (xorb (word_before prev) (word_after s))
  end.

(** A position in the subject: the character before it, and the
    characters from it on. *)
Definition position := (option ascii * list ascii)%type.

Definition first_of (greedy : bool) (more skip : option position) : option position :=
  if greedy then from_option Some skip more else from_option Some more skip.

(** Backtracking match of the terms of one alternative at a position:
    the position after the match found first, if there is one. *)
Fixpoint match_terms (ts : list term) (prev : option ascii) (s : list ascii)
    : option position :=
  match ts with
  | [] => Some (prev, s)
  | TAssert a :: ts' =>
      if assertion_holds a prev s then match_terms ts' prev s else None
  | TAtom a q :: ts' =>
      let star :=
        fix star (greedy : bool) (prev : option ascii) (s : list ascii) : option position :=
          let more :=
            match s with
            | c :: s' => if atom_matches a c then star greedy (Some c) s' else None
            | [] => None
            end in
          first_of greedy more (match_terms ts' prev s) in
      let one (k : option ascii → list ascii → option position) :=
        match s with
        | c :: s' => if atom_matches a c then k (Some c) s' else None
        | [] => None
        end in
      match q with
      | QOne => one (match_terms ts')
      | QStar g => star g prev s
      | QPlus g => one (star g)
      | QOpt g => first_of g (one (match_terms ts')) (match_terms ts' prev s)
      end
  end.

Fixpoint match_disjunction (d : disjunction) (prev : option ascii) (s : list ascii)
    : option position :=
  match d with
  | [] => None
  | alt :: d' =>
      match match_terms alt prev s with
      | Some p => Some p
      | None => match_disjunction d' prev s
      end
  end.

(** The loop of [String.prototype.match] with the [g] flag: matches are
    looked for from left to right, the search resumes where the last
    match ended, one character further after an empty match. *)
Fixpoint count_from (fuel : nat) (d : disjunction) (prev : option ascii) (s : list ascii) : nat :=
  match fuel with
  | O => O
  | S fuel' =>
      let advance :=
        match s with
        | [] => O
        | c :: s' => count_from fuel' d (Some c) s'
        end in
      match match_disjunction d prev s with
      | Some (prev', s') =>
          if (length s' <? length s)%nat then S (count_from fuel' d prev' s')
          else S advance
      | None => advance
      end
  end.

Definition count_all (d : disjunction) (text : string) : nat :=
  let s := list_ascii_of_string text in
  count_from (S (length s)) d None s.

End EcmaFragment.

(** The fragment as an engine.  A source outside the fragment is handed
    to [rest], an engine about which nothing is assumed. *)
Definition ecma_engine (rest : RegExpEngine) : RegExpEngine := {|
  match_count source text :=
    match EcmaFragment.parse source with
    | EcmaFragment.Parsed d => Return (EcmaFragment.count_all d text)
    | EcmaFragment.Invalid m =>
        Throw (SyntaxError ("Invalid regular expression: /" +:+ source +:+ "/: " +:+ m))
    | EcmaFragment.Outside => @match_count rest source text
    end
|}.

(** An engine that finds nothing, to close [ecma_engine] with. *)
Definition silent_engine : RegExpEngine := {| match_count _ _ := Return O |}.

(** ** Records *)

(** A repository as the extractor, the enricher and the analyzer see it:
    one JavaScript object, whose properties may be missing. *)
Record Repo := {
  name : option string;
  url : option string;
  description : option string;
  language : option string;
  starsAdded : option Z;
  stars : option Z;
  forks : option Z;
  (* added by the enricher *)
  readmeContent : option string;
  topics : option (list string);
  createdAt : option string;
  updatedAt : option string;
  forksCount : option Z;
  starsCount : option Z;
  watchersCount : option Z;
  openIssuesCount : option Z
}.

(** The result of [basicAnalysis]: [{...repo, relevanceScore,
    matchedKeywords, aiSummary}]. *)
Record AnalyzedRepo := {
  repo_of : Repo;
  relevanceScore : Z;
  matchedKeywords : list string;
  aiSummary : option string
}.

(** [radar.config.yml] after [loadConfiguration]. *)
Record Config := {
  target_languages : list string;
  topic_keywords : list string;
  enable_ai_summaries : option bool;
  max_ai_summaries : option Z
}.

(** The body of a GitHub API answer, for the two endpoints used. *)
Record ApiData := {
  content : option string;
  api_topics : option (list string);
  created_at : option string;
  updated_at : option string;
  forks_count : option Z;
  stargazers_count : option Z;
  watchers_count : option Z;
  open_issues_count : option Z
}.

(** ** The outside world and the monad of effects *)

(** The HTTP client of [RadarGitHubAPI] ([this.request], with its token
    and its retries) and the base64 decoder of the platform. *)
Class Transport := {
  World : Type;
  request : string → string → World → completion (option ApiData) * World;
  base64_decode : string → string
}.

Section Effects.
Context {T : Transport}.

(** One [logError] call: the text and the detail. *)
Definition log_entry := (string * string)%type.

Record state := {
  world : World;
  error_log : list log_entry
}.

Definition M (A : Type) := state → completion A * state.

#[export] Instance M_ret : MRet M := λ A a s, (Return a, s).
#[export] Instance M_bind : MBind M := λ A B k m s,
  match m s with
  | (Return a, s') => k a s'
  | (Throw e, s') => (Throw e, s')
  end.

Definition throw {A} (e : exn) : M A := λ s, (Throw e, s).
Definition lift {A} (c : completion A) : M A := λ s, (c, s).

(** [try { m } catch (error) { h error }] *)
Definition try_catch {A} (m : M A) (h : exn → M A) : M A :=
  λ s, match m s with
       | (Return a, s') => (Return a, s')
       | (Throw e, s') => h e s'
       end.

Definition logError (text detail : string) : M unit :=
  λ s, (Return tt, {| world := world s; error_log := error_log s ++ [(text, detail)] |}).

Definition call_request (method url : string) : M (option ApiData) :=
  λ s, let '(r, w) := request method url (world s) in
       (r, {| world := w; error_log := error_log s |}).

End Effects.

(** [`${x}`] for a name that may be undefined. *)
Definition show_name (o : option string) : string := default "undefined" o.

(** ** Language filter (language-filter.js) *)

Module LanguageFilter.

Record t := { targetLanguages : list string }.

Definition new (targetLanguages : list string) : t :=
  {| targetLanguages := map toLowerCase targetLanguages |}.

Definition keeps (this : t) (repo : Repo) : bool :=
  let repoLanguage := toLowerCase (or_str (language repo) "") in
  includes (targetLanguages this) repoLanguage.

Definition filter (this : t) (repos : list Repo) : list Repo :=
  if (length (targetLanguages this) =? 0)%nat then repos
  else List.filter (keeps this) repos.

End LanguageFilter.

(** ** GitHub API client and content enricher
    (RadarGitHubAPI, content-enricher.js) *)

Section Enricher.
Context {T : Transport}.

(** [RadarGitHubAPI.fetchJson], called with the method ['get'] and so
    sending ["GET"]; the [pages] of the answer are not used by the
    enricher and are left out. *)
Definition fetchJson (method url : string) : M (option ApiData) :=
  try_catch (call_request method url)
    (λ error,
      logError ("GitHub API error: " +:+ method +:+ " " +:+ url) (message_of error);;
      throw error).

Definition getReadmeContent (owner repo : string) : M string :=
  try_catch
    (result ← fetchJson "GET" ("/repos/" +:+ owner +:+ "/" +:+ repo +:+ "/readme");
     match result with
     | Some data =>
         match content data with
         | Some c =>
             if truthy_str c then mret (substring0 5000 (base64_decode c))
             else mret ""
         | None => mret ""
         end
     | None => mret ""
     end)
    (λ error, throw error).

Definition getRepoMetadata (owner repo : string) : M (option ApiData) :=
  fetchJson "GET" ("/repos/" +:+ owner +:+ "/" +:+ repo).

(** [{...repo, readmeContent, topics: ..., ...}] *)
Definition enriched (repo : Repo) (readme : string) (repoMetadata : option ApiData) : Repo :=
  {| name := name repo;
     url := url repo;
     description := description repo;
     language := language repo;
     starsAdded := starsAdded repo;
     stars := stars repo;
     forks := forks repo;
     readmeContent := Some readme;
     topics := Some (default [] (repoMetadata ≫= api_topics));
     createdAt := repoMetadata ≫= created_at;
     updatedAt := repoMetadata ≫= updated_at;
     forksCount := js_or_Z (repoMetadata ≫= forks_count) (forks repo);
     starsCount := js_or_Z (repoMetadata ≫= stargazers_count) (stars repo);
     watchersCount := repoMetadata ≫= watchers_count;
     openIssuesCount := repoMetadata ≫= open_issues_count |}.

Definition enrichSingleRepo (repo : Repo) : M Repo :=
  match name repo with
  | None => throw (TypeError "Cannot read properties of undefined (reading 'split')")
  | Some nm =>
      let parts := Js.split "/" nm in
      let owner := or_str (parts !! 0%nat) "" in
      let repoName := or_str (parts !! 1%nat) "" in
      if negb (truthy_str owner) || negb (truthy_str repoName) then mret repo
      else
        try_catch
          (readme ← getReadmeContent owner repoName;
           repoMetadata ← getRepoMetadata owner repoName;
           mret (enriched repo readme repoMetadata))
          (λ error,
            (if bool_decide (response_status error = Some 404) then mret tt
             else if bool_decide (response_status error = Some 403) then mret tt
             else logError ("Error enriching " +:+ nm +:+ ":") (message_of error));;
            mret repo)
  end.

(** The loop of [enrichBatch]; [enrichedRepos] is the array built so
    far. *)
Fixpoint enrichBatch_loop (repos : list Repo) (enrichedRepos : list Repo) : M (list Repo) :=
  match repos with
  | [] => mret enrichedRepos
  | repo :: rest =>
      enrichedRepos' ←
        try_catch
          (enrichedRepo ← enrichSingleRepo repo;
           mret (enrichedRepos ++ [enrichedRepo]))
          (λ error,
            logError ("Failed to enrich repo " +:+ show_name (name repo) +:+ ":")
                     (message_of error);;
            mret (enrichedRepos ++ [repo]));
      enrichBatch_loop rest enrichedRepos'
  end.

Definition enrichBatch (repos : list Repo) : M (list Repo) :=
  enrichBatch_loop repos [].

End Enricher.

(** ** Smart analyzer (smart-analyzer.js) *)

Module SmartAnalyzer.

Record t := {
  topicKeywords : list string;
  enableAISummaries : bool;
  maxAISummaries : Z;
  openaiApiKey : option string
}.

(** The constructor; [env_key] is [process.env.OPENAI_API_KEY]. *)
Definition new (config : Config) (env_key : option string) : t :=
  let enable := negb (bool_decide (enable_ai_summaries config = Some false)) in
  let has_key := truthy_str (or_str env_key "") in
  {| topicKeywords := topic_keywords config;
     enableAISummaries := enable && has_key;
     maxAISummaries := default 10 (js_or_Z (max_ai_summaries config) (Some 10));
     openaiApiKey := env_key |}.

Section Scoring.
Context {E : RegExpEngine}.

(** One turn of the loop of [findKeywordMatches]: the value of
    [matches] for one keyword. *)
Definition keywordMatches (keyword lowerText : string) : completion Z :=
  let lowerKeyword := toLowerCase keyword in
  exactMatches ← match_count ("\b" +:+ lowerKeyword +:+ "\b") lowerText;
  partialMatches ← match_count lowerKeyword lowerText;
  mret (Z.max (Z.of_nat exactMatches) (Z.of_nat partialMatches)).

Fixpoint findKeywordMatches_loop (keywords : list string) (lowerText : string)
    (matchedKeywords : list string) (score : Z) : completion (Z * list string) :=
  match keywords with
  | [] => mret (score, matchedKeywords)
  | keyword :: rest =>
      matches ← keywordMatches keyword lowerText;
      if 0 <? matches
      then findKeywordMatches_loop rest lowerText (matchedKeywords ++ [keyword]) (score + matches)
      else findKeywordMatches_loop rest lowerText matchedKeywords score
  end.

(** The result is the pair [(score, keywords)]. *)
Definition findKeywordMatches (this : t) (text : string) : completion (Z * list string) :=
  if negb (truthy_str text) || (length (topicKeywords this) =? 0)%nat
  then mret (0, [])
  else findKeywordMatches_loop (topicKeywords this) (toLowerCase text) [] 0.

Definition basicAnalysis (this : t) (repo : Repo) : completion AnalyzedRepo :=
  let relevanceScore := 0 in
  let matchedKeywords := [] in
  '(relevanceScore, matchedKeywords) ←
    (if truthy_str (or_str (description repo) "") then
       descMatches ← findKeywordMatches this (or_str (description repo) "");
       mret (relevanceScore + descMatches.1 * 5, matchedKeywords ++ descMatches.2)
     else mret (relevanceScore, matchedKeywords));
  '(relevanceScore, matchedKeywords) ←
    (if truthy_str (or_str (readmeContent repo) "") then
       readmeMatches ← findKeywordMatches this (or_str (readmeContent repo) "");
       mret (relevanceScore + readmeMatches.1, matchedKeywords ++ readmeMatches.2)
     else mret (relevanceScore, matchedKeywords));
  '(relevanceScore, matchedKeywords) ←
    match topics repo with
    | Some ts =>
        topicMatches ← findKeywordMatches this (join " " ts);
        mret (relevanceScore + topicMatches.1 * 3, matchedKeywords ++ topicMatches.2)
    | None => mret (relevanceScore, matchedKeywords)
    end;
  let uniqueKeywords := set_spread matchedKeywords in
  mret {| repo_of := repo;
          relevanceScore := relevanceScore;
          matchedKeywords := uniqueKeywords;
          aiSummary := None |}.

End Scoring.

(** The scan of one field by [basicAnalysis]: skipped when the text is
    empty. *)
Definition scan {E : RegExpEngine} (this : t) (text : string) : completion (Z * list string) :=
  if truthy_str text then findKeywordMatches this text else Return (0, []).

(** The placeholder of [generateAISummary]; the prompt it builds only
    feeds the informational log. *)
Definition generateAISummary (this : t) (repo : Repo) (matchedKeywords : list string)
    : completion string :=
  if negb (truthy_str (or_str (openaiApiKey this) ""))
  then Throw (Error "OpenAI API key not available")
  else Return ("ðŸ¤– AI Summary: This repository appears relevant to your interests in "
               +:+ join ", " matchedKeywords
               +:+ " based on its description and README content.").

Definition with_summary (a : AnalyzedRepo) (summary : option string) : AnalyzedRepo :=
  {| repo_of := repo_of a;
     relevanceScore := relevanceScore a;
     matchedKeywords := matchedKeywords a;
     aiSummary := summary |}.

(** [if (analyzedRepo.aiSummary)] *)
Definition has_summary (a : AnalyzedRepo) : bool :=
  truthy_str (or_str (aiSummary a) "").

Section Batch.
Context {E : RegExpEngine} {T : Transport}.

Definition analyzeSingleRepo (this : t) (repo : Repo) (aiSummaryCount : Z)
    : M AnalyzedRepo :=
  analysisResult ← lift (basicAnalysis this repo);
  if enableAISummaries this
     && (0 <? relevanceScore analysisResult)
     && (aiSummaryCount <? maxAISummaries this)
  then
    try_catch
      (summary ← lift (generateAISummary this repo (matchedKeywords analysisResult));
       mret (with_summary analysisResult (Some summary)))
      (λ error,
        logError ("Failed to generate AI summary for " +:+ show_name (name repo) +:+ ":")
                 (message_of error);;
        mret (with_summary analysisResult None))
  else mret analysisResult.

(** The loop of [analyzeBatch], with the array and the counter it
    updates. *)
Fixpoint analyzeBatch_loop (this : t) (repos : list Repo)
    (analyzedRepos : list AnalyzedRepo) (aiSummaryCount : Z) : M (list AnalyzedRepo) :=
  match repos with
  | [] => mret analyzedRepos
  | repo :: rest =>
      '(analyzedRepos', aiSummaryCount') ←
        try_catch
          (analyzedRepo ← analyzeSingleRepo this repo aiSummaryCount;
           mret (analyzedRepos ++ [analyzedRepo],
                 if has_summary analyzedRepo then aiSummaryCount + 1 else aiSummaryCount))
          (λ error,
            logError ("Failed to analyze repo " +:+ show_name (name repo) +:+ ":")
                     (message_of error);;
            basic ← lift (basicAnalysis this repo);
            mret (analyzedRepos ++ [basic], aiSummaryCount));
      analyzeBatch_loop this rest analyzedRepos' aiSummaryCount'
  end.

Definition analyzeBatch (this : t) (repos : list Repo) : M (list AnalyzedRepo) :=
  analyzeBatch_loop this repos [] 0.

End Batch.

End SmartAnalyzer.

(** ** The orchestrators (radar.js, radar-standalone.js) *)

(** The variables of the environment that the analysis reads;
    [github_token] is the first one set among the three names that
    [getGitHubToken] tries. *)
Record Env := {
  github_token : option string;
  OPENAI_API_KEY : option string
}.

(** The fields of a radar object that the analysis reads and writes. *)
Record Radar := {
  config : Config;
  allRepos : list Repo;
  filteredRepos : list Repo;
  analysisResults : list AnalyzedRepo
}.

Definition new_Radar (config : Config) (allRepos : list Repo) : Radar :=
  {| config := config; allRepos := allRepos; filteredRepos := []; analysisResults := [] |}.

(** [l.slice(i, j)] for [i ≤ j]. *)
Definition slice {A} (i j : nat) (l : list A) : list A := take (j - i) (drop i l).

(** [for (let i = 0; i < l.length; i += batchSize) batches.push(l.slice(i, i + batchSize))];
    the loop runs at most [length l] times. *)
Fixpoint batches_from {A} (fuel batchSize i : nat) (l : list A) : list (list A) :=
  match fuel with
  | O => []
  | S fuel' =>
      if (i <? length l)%nat
      then slice i (i + batchSize) l :: batches_from fuel' batchSize (i + batchSize)%nat l
      else []
  end.

Definition make_batches {A} (batchSize : nat) (l : list A) : list (list A) :=
  batches_from (length l) batchSize 0 l.

Section Orchestrators.
Context {E : RegExpEngine} {T : Transport}.

(** [new ContentEnricher()]: the constructor of the API client throws
    when no token is set. *)
Definition new_ContentEnricher (env : Env) : M unit :=
  if truthy_str (or_str (github_token env) "") then mret tt
  else throw (Error ("GitHub token not found. Please set one of these environment variables: "
                     +:+ "GITHUB_TOKEN, GITHUB_TOKEN_BOT, GITHUB_TOKEN_VITALETS")).

Definition with_filtered (this : Radar) (filtered : list Repo) : Radar :=
  {| config := config this; allRepos := allRepos this;
     filteredRepos := filtered; analysisResults := analysisResults this |}.

Definition push_results (this : Radar) (analyzedBatch : list AnalyzedRepo) : Radar :=
  {| config := config this; allRepos := allRepos this;
     filteredRepos := filteredRepos this;
     analysisResults := analysisResults this ++ analyzedBatch |}.

(** One turn of the batch loop of both radars. *)
Definition process_batch (smartAnalyzer : SmartAnalyzer.t) (this : Radar)
    (batch : list Repo) : M Radar :=
  enrichedBatch ← enrichBatch batch;
  analyzedBatch ← SmartAnalyzer.analyzeBatch smartAnalyzer enrichedBatch;
  mret (push_results this analyzedBatch).

(** [PersonalizedRadar.analyzeRepos]: batches of five, no handler
    around a batch. *)
Fixpoint personalized_batches (smartAnalyzer : SmartAnalyzer.t) (this : Radar)
    (batches : list (list Repo)) : M Radar :=
  match batches with
  | [] => mret this
  | batch :: rest =>
      this' ← process_batch smartAnalyzer this batch;
      personalized_batches smartAnalyzer this' rest
  end.

Definition PersonalizedRadar_analyzeRepos (env : Env) (this : Radar) : M Radar :=
  let languageFilter := LanguageFilter.new (target_languages (config this)) in
  let this := with_filtered this (LanguageFilter.filter languageFilter (allRepos this)) in
  new_ContentEnricher env;;
  let smartAnalyzer := SmartAnalyzer.new (config this) (OPENAI_API_KEY env) in
  let batchSize := 5%nat in
  let batches := make_batches batchSize (filteredRepos this) in
  personalized_batches smartAnalyzer this batches.

(** [StandaloneRadar.analyzeRepos]: batches of three, each in a
    [try]; [i] is the index of the batch. *)
Fixpoint standalone_batches (smartAnalyzer : SmartAnalyzer.t) (this : Radar)
    (i : nat) (batches : list (list Repo)) : M Radar :=
  match batches with
  | [] => mret this
  | batch :: rest =>
      this' ←
        try_catch (process_batch smartAnalyzer this batch)
          (λ error,
            logError ("Batch " +:+ pretty (i + 1)%nat +:+ " failed:") (message_of error);;
            mret this);
      standalone_batches smartAnalyzer this' (S i) rest
  end.

Definition StandaloneRadar_analyzeRepos (env : Env) (this : Radar) : M Radar :=
  let languageFilter := LanguageFilter.new (target_languages (config this)) in
  let this := with_filtered this (LanguageFilter.filter languageFilter (allRepos this)) in
  new_ContentEnricher env;;
  let smartAnalyzer := SmartAnalyzer.new (config this) (OPENAI_API_KEY env) in
  let batchSize := 3%nat in
  let batches := make_batches batchSize (filteredRepos this) in
  standalone_batches smartAnalyzer this 0 batches.

(** The number of analyzed records that carry a summary, as
    [getAnalysisStats] counts them. *)
Definition aiSummarized (analyzedRepos : list AnalyzedRepo) : nat :=
  length (List.filter SmartAnalyzer.has_summary analyzedRepos).

End Orchestrators.

(** ** Concrete worlds and records for the examples *)

(** A transport whose every request is answered "404 Not Found". *)
Definition offline : Transport := {|
  World := unit;
  request _ _ w := (Throw (HttpError (Some 404) "Request failed with status code 404"), w);
  base64_decode s := s
|}.

Definition initial_state {T : Transport} (w : World) : state :=
  {| world := w; error_log := [] |}.

Definition bare_repo (nm descr : string) (lang : option string) : Repo :=
  {| name := Some nm; url := None; description := Some descr; language := lang;
     starsAdded := None; stars := None; forks := None;
     readmeContent := None; topics := None; createdAt := None; updatedAt := None;
     forksCount := None; starsCount := None; watchersCount := None;
     openIssuesCount := None |}.

(** A record on which only the name is set. *)
Definition untagged_repo : Repo :=
  {| name := Some "o/r"; url := None; description := None; language := None;
     starsAdded := None; stars := None; forks := None;
     readmeContent := None; topics := None; createdAt := None; updatedAt := None;
     forksCount := None; starsCount := None; watchersCount := None;
     openIssuesCount := None |}.

(** An environment in which both keys are set. *)
Definition keyed_env : Env :=
  {| github_token := Some "ghp_token"; OPENAI_API_KEY := Some "sk-key" |}.

Definition keyword_config (langs keywords : list string) : Config :=
  {| target_languages := langs; topic_keywords := keywords;
     enable_ai_summaries := None; max_ai_summaries := None |}.

(** Eleven records that all mention the keyword "AI". *)
Definition eleven_ai_repos : list Repo := replicate 11 (bare_repo "o/r" "AI" None).

(** Five records with a description, then five without. *)
Definition five_described_five_bare : list Repo :=
  replicate 5 (bare_repo "o/r" "A C++ compiler" None) ++ replicate 5 untagged_repo.

Definition ai_analyzer (enabled : option bool) : SmartAnalyzer.t :=
  SmartAnalyzer.new
    {| target_languages := []; topic_keywords := ["agent"; "AI"; "agent"];
       enable_ai_summaries := enabled; max_ai_summaries := Some 1 |}
    (Some "sk-key").

Definition agent_repo (nm : string) : Repo :=
  {| name := Some nm; url := None; description := Some "An AI agent framework";
     language := Some "Python"; starsAdded := None; stars := None; forks := None;
     readmeContent := Some "Agents for everyone"; topics := Some ["ai"; "llm"];
     createdAt := None; updatedAt := None; forksCount := None; starsCount := None;
     watchersCount := None; openIssuesCount := None |}.

(** ** The statements of the specification, in its own terms *)

Module Spec.

(** The language tag [lang] is, up to case, one of the targets. *)
Definition language_in (targets : list string) (lang : string) : bool :=
  existsb (λ t, String.eqb (toLowerCase t) (toLowerCase lang)) targets.

(** The filter as the specification words it: a record without a
    language tag never matches. *)
Definition filter_missing_never (targets : list string) (repos : list Repo) : list Repo :=
  match targets with
  | [] => repos
  | _ => List.filter (λ r, match language r with
                           | Some lang => language_in targets lang
                           | None => false
                           end) repos
  end.

(** The filter with a missing tag read as the empty tag. *)
Definition filter_missing_empty (targets : list string) (repos : list Repo) : list Repo :=
  match targets with
  | [] => repos
  | _ => List.filter (λ r, language_in targets (default "" (language r))) repos
  end.

(** *** Scoring *)

Fixpoint sumZ {A} (f : A → Z) (l : list A) : Z :=
  match l with
  | [] => 0
  | a :: l' => f a + sumZ f l'
  end.

Inductive field := Description | Readme | Topics.

(** The text of a field of a record; a missing field has no text, and
    the topic tags are joined by spaces. *)
Definition field_text (f : field) (repo : Repo) : string :=
  match f with
  | Description => default "" (description repo)
  | Readme => default "" (readmeContent repo)
  | Topics => match topics repo with Some ts => join " " ts | None => "" end
  end.

Definition weight (f : field) : Z :=
  match f with Description => 5 | Readme => 1 | Topics => 3 end.

Section Counts.
Context {E : RegExpEngine}.

Definition count_of (c : completion nat) : Z :=
  match c with Return n => Z.of_nat n | Throw _ => 0 end.

(** The two ways of counting a keyword in a text, both on the
    lower-cased keyword and text. *)
Definition whole_word_count (keyword text : string) : Z :=
  count_of (match_count ("\b" +:+ toLowerCase keyword +:+ "\b") (toLowerCase text)).

Definition substring_count (keyword text : string) : Z :=
  count_of (match_count (toLowerCase keyword) (toLowerCase text)).

(** Both regular expressions of a keyword can be built and run on
    the text. *)
Definition compiles (keyword text : string) : Prop :=
  (∃ n, match_count ("\b" +:+ toLowerCase keyword +:+ "\b") (toLowerCase text) = Return n)
  ∧ (∃ n, match_count (toLowerCase keyword) (toLowerCase text) = Return n).

(** The match count of a keyword in a text: the larger of the two
    counts; an empty text counts nothing. *)
Definition keyword_count (keyword text : string) : Z :=
  if truthy_str text
  then Z.max (whole_word_count keyword text) (substring_count keyword text)
  else 0.

Definition matched_in (text keyword : string) : bool :=
  0 <? keyword_count keyword text.

(** The score of a record: the weighted counts, summed over the
    keywords. *)
Definition score (keywords : list string) (repo : Repo) : Z :=
  sumZ (λ k, 5 * keyword_count k (field_text Description repo)
             + 1 * keyword_count k (field_text Readme repo)
             + 3 * keyword_count k (field_text Topics repo)) keywords.

(** The first field, in the order description, long-form text,
    topics, in which a keyword is matched. *)
Definition first_field (repo : Repo) (keyword : string) : option field :=
  if matched_in (field_text Description repo) keyword then Some Description
  else if matched_in (field_text Readme repo) keyword then Some Readme
  else if matched_in (field_text Topics repo) keyword then Some Topics
  else None.

Definition first_matched_in (f : field) (repo : Repo) (keyword : string) : bool :=
  match first_field repo keyword, f with
  | Some Description, Description | Some Readme, Readme | Some Topics, Topics => true
  | _, _ => false
  end.

(** The matched keywords: field after field, the keywords first
    matched in that field, in the order of the configuration, each
    keyword once. *)
Definition matched (keywords : list string) (repo : Repo) : list string :=
  List.filter (first_matched_in Description repo) (set_spread keywords)
  ++ List.filter (first_matched_in Readme repo) (set_spread keywords)
  ++ List.filter (first_matched_in Topics repo) (set_spread keywords).

End Counts.

(** *** Enrichment *)

Section Requests.
Context {T : Transport}.

(** The owner and the name of a record whose [name] has both. *)
Definition owner_and_name (r : Repo) : option (string * string) :=
  nm ← name r;
  let parts := Js.split "/" nm in
  let owner := or_str (parts !! 0%nat) "" in
  let repoName := or_str (parts !! 1%nat) "" in
  if truthy_str owner && truthy_str repoName then Some (owner, repoName) else None.

Definition readme_url (owner repoName : string) : string :=
  "/repos/" +:+ owner +:+ "/" +:+ repoName +:+ "/readme".

Definition metadata_url (owner repoName : string) : string :=
  "/repos/" +:+ owner +:+ "/" +:+ repoName.

Definition always_throws (url : string) : Prop :=
  ∀ w, ∃ e w', request "GET" url w = (Throw e, w').

Definition always_returns (url : string) : Prop :=
  ∀ w, ∃ d w', request "GET" url w = (Return d, w').

(** The enrichment of a record fails: its name is unusable, or one
    of its two requests fails. *)
Definition enrichment_fails (r : Repo) : Prop :=
  match owner_and_name r with
  | None => True
  | Some (owner, repoName) =>
      always_throws (readme_url owner repoName)
      ∨ always_throws (metadata_url owner repoName)
  end.

(** The enrichment of a record succeeds: both requests are
    answered. *)
Definition enrichment_succeeds (r : Repo) : Prop :=
  match owner_and_name r with
  | None => False
  | Some (owner, repoName) =>
      always_returns (readme_url owner repoName)
      ∧ always_returns (metadata_url owner repoName)
  end.

(** An enriched form of [r]: the fields of [r], with the added
    fields set. *)
Definition enriched_from (r e : Repo) : Prop :=
  ∃ readme repoMetadata, e = enriched r readme repoMetadata.

(** What [enrichBatch] is to put in its result for one record. *)
Definition enrichment_outcome (r e : Repo) : Prop :=
  (e = r ∨ enriched_from r e)
  ∧ (enrichment_fails r → e = r)
  ∧ (enrichment_succeeds r → enriched_from r e).







End Requests.

(** *** Summaries *)

(** A record without a positive score carries no summary. *)
Definition unscored_unsummarized (a : AnalyzedRepo) : Prop :=
  relevanceScore a = 0 → aiSummary a = None.

(** A keyword without any syntax character of the pattern language. *)
Definition plain_keyword (keyword : string) : Prop :=
  Forall (λ c, EcmaFragment.is_syntax_char c = false) (list_ascii_of_string keyword).

End Spec.

(** ** Further functions of the analyzer, the API client and the radar *)

(** *** JavaScript helpers *)

Module JsMore.








(** [Array.prototype.sort] with a comparison function, which is
    stable: an element stays before the later elements that compare equal
    to it. *)
Fixpoint sort_insert {A} (compare : A → A → Z) (x : A) (sorted : list A) : list A :=
  match sorted with
  | [] => [x]
  | y :: sorted' =>
      if compare x y <=? 0 then x :: y :: sorted'
      else y :: sort_insert compare x sorted'
  end.

Definition sort {A} (compare : A → A → Z) (l : list A) : list A :=
  foldr (sort_insert compare) [] l.

End JsMore.

(** An object used as a table of counts: its own properties, in the
    order in which they were created.  This is the order of
    [Object.entries] and the meaning of [o[k]] for the keys that are
    [ordinary_key]: a key that names a property of [Object.prototype] is
    read from the prototype by the source, and a key that is an array
    index is listed first. *)
Module Obj.

Definition t := list (string * Z).

Fixpoint get (o : t) (k : string) : option Z :=
  match o with
  | [] => None
  | (k', v) :: o' => if String.eqb k' k then Some v else get o' k
  end.

Fixpoint set (o : t) (k : string) (v : Z) : t :=
  match o with
  | [] => [(k, v)]
  | (k', v') :: o' => if String.eqb k' k then (k, v) :: o' else (k', v') :: set o' k v
  end.

Definition entries (o : t) : list (string * Z) := o.

(** [o[k] = (o[k] || 0) + 1] *)
Definition increment (o : t) (k : string) : t :=
  set o k (default 0 (js_or_Z (get o k) (Some 0)) + 1).

Definition prototype_keys : list string :=
  ["constructor"; "__proto__"; "hasOwnProperty"; "isPrototypeOf";
   "propertyIsEnumerable"; "toLocaleString"; "toString"; "valueOf";
   "__defineGetter__"; "__defineSetter__"; "__lookupGetter__"; "__lookupSetter__"].

Definition all_digits (k : string) : bool :=
  forallb EcmaFragment.is_digit (list_ascii_of_string k).

Definition ordinary_key (k : string) : Prop :=
  (k ∉ prototype_keys) ∧ (k = "" ∨ all_digits k = false).

End Obj.

(** *** Statistics (smart-analyzer.js, language-filter.js) *)

(** The result of [getAnalysisStats]; the average is kept as the sum
    and the number it is divided by.  The field [aiSummarized] of the
    source is [aiSummarizedRepos] here. *)
Record AnalysisStats := {
  totalAnalyzed : nat;
  relevantRepos : nat;
  aiSummarizedRepos : nat;
  averageRelevanceScore : Z * nat
}.

Definition getAnalysisStats (analyzedRepos : list AnalyzedRepo) : AnalysisStats :=
  let relevant := List.filter (λ repo, 0 <? relevanceScore repo) analyzedRepos in
  let aiSummarized := length (List.filter SmartAnalyzer.has_summary analyzedRepos) in
  {| totalAnalyzed := length analyzedRepos;
     relevantRepos := length relevant;
     aiSummarizedRepos := aiSummarized;
     averageRelevanceScore :=
       (foldl (λ sum repo, sum + relevanceScore repo) 0 analyzedRepos,
        length analyzedRepos) |}.

(** The number of elements of [l] filed under [k]. *)
Definition filed_under {A} (key : A → string) (k : string) (l : list A) : nat :=
  length (List.filter (λ x, String.eqb (key x) k) l).

(** The sum of the counts of a table. *)
Definition total_count (o : Obj.t) : Z := Spec.sumZ snd o.

(** The language under which [getLanguageStats] files a record. *)
Definition language_key (repo : Repo) : string := or_str (language repo) "Unknown".


(** The number of records with a positive score. *)
Definition positives (l : list AnalyzedRepo) : nat :=
  length (List.filter (λ a, 0 <? relevanceScore a) l).

(** [LanguageFilter.getLanguageStats] *)
Definition getLanguageStats (repos : list Repo) : Obj.t :=
  foldl (λ stats repo, Obj.increment stats (or_str (language repo) "Unknown")) [] repos.

(** *** Report formatter (radar-formatter.js) *)

(** The settings of [radar.config.yml] that the formatter reads. *)
Record ReportConfig := {
  analysis_config : Config;
  min_relevance_score : option Z
}.

Module RadarFormatter.

Record t := {
  config : ReportConfig;
  minRelevanceScore : Z
}.

Definition new (config : ReportConfig) : t :=
  {| config := config;
     minRelevanceScore := default 1 (js_or_Z (min_relevance_score config) (Some 1)) |}.


Definition getTopKeywords (repos : list AnalyzedRepo) : list string :=
  let keywordCounts :=
    foldl (λ counts repo, foldl Obj.increment counts (matchedKeywords repo)) [] repos in
  map fst (JsMore.sort (λ a b, b.2 - a.2) (Obj.entries keywordCounts)).

Definition getLanguageStats (repos : list AnalyzedRepo) : Obj.t :=
  foldl (λ stats repo, Obj.increment stats (or_str (language (repo_of repo)) "Unknown"))
        [] repos.








(** The records that [format] reports: those that reach the minimum
    score, the highest score first. *)
Definition relevantRepos (this : t) (analyzedRepos : list AnalyzedRepo) : list AnalyzedRepo :=
  JsMore.sort (λ a b, relevanceScore b - relevanceScore a)
    (List.filter (λ repo, minRelevanceScore this <=? relevanceScore repo) analyzedRepos).


End RadarFormatter.

(** The score from which a formatter built from [config] reports a
    record: the configured minimum, or 1 when none or 0 is configured. *)
Definition report_threshold (config : ReportConfig) : Z :=
  match min_relevance_score config with
  | Some n => if n =? 0 then 1 else n
  | None => 1
  end.

(** *** GitHub token (radar-github-api.js, radar.js) *)

Definition possibleTokenNames : list string :=
  ["GITHUB_TOKEN"; "GITHUB_TOKEN_BOT"; "GITHUB_TOKEN_VITALETS"].

(** [process.env[tokenName]], when it is truthy. *)
Definition env_value (env : gmap string string) (tokenName : string) : option string :=
  match env !! tokenName with
  | Some value => if truthy_str value then Some value else None
  | None => None
  end.

(** [RadarGitHubAPI.getGitHubToken]: [null] is [None]. *)
Definition getGitHubToken (env : gmap string string) : option string :=
  (fix loop (names : list string) : option string :=
     match names with
     | [] => None
     | tokenName :: names' =>
         match env_value env tokenName with
         | Some value => Some value
         | None => loop names'
         end
     end) possibleTokenNames.

(** [PersonalizedRadar.ensureGitHubToken]: the environment after the
    call. *)
Definition ensureGitHubToken (env : gmap string string) : completion (gmap string string) :=
  (fix loop (names : list string) : completion (gmap string string) :=
     match names with
     | [] => Throw (Error ("GitHub token not found. Please set one of these environment variables: "
                           +:+ join ", " possibleTokenNames))
     | tokenName :: names' =>
         match env_value env tokenName with
         | Some value => Return (<["GITHUB_TOKEN" := value]> env)
         | None => loop names'
         end
     end) possibleTokenNames.

(** *** Rate limit (radar-github-api.js) *)

Record RateInfo := {
  remaining : option Z;
  reset : option Z
}.

Record RateLimit := {
  rate : option RateInfo
}.

(** [this.request.get('/rate_limit')]: the body of the answer. *)
Class RateLimitEndpoint {T : Transport} := {
  request_rate_limit : World → completion (option RateLimit) * World
}.

Section RateLimitCheck.
Context {T : Transport} {R : RateLimitEndpoint}.

Definition call_rate_limit : M (option RateLimit) :=
  λ s, let '(r, w) := request_rate_limit (world s) in
       (r, {| world := w; error_log := error_log s |}).

Definition getRateLimit : M (option RateLimit) :=
  try_catch call_rate_limit
    (λ error, logError "Failed to get rate limit:" (message_of error);; mret None).

Definition checkRateLimit : M bool :=
  try_catch
    (rateLimit ← getRateLimit;
     match rateLimit with
     | Some limit =>
         match rate limit with
         | Some info => mret (match remaining info with Some n => 10 <? n | None => false end)
         | None => throw (TypeError "Cannot read properties of undefined (reading 'remaining')")
         end
     | None => mret true
     end)
    (λ error, logError "Failed to check rate limit:" (message_of error);; mret true).

End RateLimitCheck.

(** *** The error log *)

(** Running [m] only appends to the error log, and what it appends
    satisfies [P]. *)
Definition logs_only {T : Transport} {A} (P : log_entry → Prop) (m : M A) : Prop :=
  ∀ s c s', m s = (c, s') →
    ∃ extra, error_log s' = error_log s ++ extra ∧ Forall P extra.

(** An entry written by a stage of the pipeline, not by the batch loop
    of the standalone radar. *)
Definition stage_entry (entry : log_entry) : Prop :=
  String.prefix "Batch " entry.1 = false.

(** The number of entries that report a failed batch. *)
Definition batch_failures (log : list log_entry) : nat :=
  length (List.filter (λ entry, String.prefix "Batch " entry.1) log).

(** *** What a run is to produce for one record *)

(** [a] is the analysis of [repo] by [sa] after enrichment: the
    record itself or its enriched form, with the score and the keywords
    of [basicAnalysis]. *)
Definition analysis_of {E : RegExpEngine} {T : Transport} (sa : SmartAnalyzer.t)
    (repo : Repo) (a : AnalyzedRepo) : Prop :=
  ∃ e b, Spec.enrichment_outcome repo e
         ∧ SmartAnalyzer.basicAnalysis sa e = Return b
         ∧ repo_of a = e
         ∧ relevanceScore a = relevanceScore b
         ∧ matchedKeywords a = matchedKeywords b.

(** *** Further worlds and records for the examples *)

(** A world in which every request is answered with the same body. *)
Definition answering : Transport := {|
  World := unit;
  request _ _ w :=
    (Return (Some {| content := Some "Agents for everyone";
                     api_topics := Some ["ai"; "llm"];
                     created_at := None; updated_at := None;
                     forks_count := Some 7; stargazers_count := Some 42;
                     watchers_count := None; open_issues_count := None |}), w);
  base64_decode s := s
|}.

Definition scored (repo : Repo) (score : Z) (keywords : list string) : AnalyzedRepo :=
  {| repo_of := repo; relevanceScore := score; matchedKeywords := keywords;
     aiSummary := None |}.

(** A record without a name. *)
Definition nameless_repo : Repo :=
  {| name := None; url := None; description := Some "AI"; language := None;
     starsAdded := None; stars := None; forks := None;
     readmeContent := None; topics := None; createdAt := None; updatedAt := None;
     forksCount := None; starsCount := None; watchersCount := None;
     openIssuesCount := None |}.


(** * Properties *)

(** ** Language filter *)

Lemma includes_true (l : list string) (x : string) : includes l x = true ↔ x ∈ l.
Proof. unfold includes. by rewrite bool_decide_eq_true. Qed.

Lemma includes_lowered (targets : list string) (lang : string) :
  includes (map toLowerCase targets) (toLowerCase lang) = Spec.language_in targets lang.
Proof.
  apply eq_true_iff_eq. rewrite includes_true. unfold Spec.language_in.
  rewrite existsb_exists, list_elem_of_In, in_map_iff.
  split.
  - intros (t & Ht & Hin). exists t. split; [done|]. by apply String.eqb_eq.
  - intros (t & Hin & Ht). exists t. split; [|done]. by apply String.eqb_eq.
Qed.

Lemma or_str_default (o : option string) : or_str o "" = default "" o.
Proof. destruct o as [[|c s]|]; reflexivity. Qed.

Lemma filter_keeps (targets : list string) (r : Repo) :
  LanguageFilter.keeps (LanguageFilter.new targets) r
  = Spec.language_in targets (default "" (language r)).
Proof.
  unfold LanguageFilter.keeps, LanguageFilter.new; simpl.
  by rewrite or_str_default, includes_lowered.
Qed.

(** With no target language the filter hands its input back. *)
Lemma filter_no_target (repos : list Repo) :
  LanguageFilter.filter (LanguageFilter.new []) repos = repos.
Proof. reflexivity. Qed.

(** Every record that passes a non-empty filter has a tag that is, up to
    case, one of the targets (the empty tag standing for a missing one). *)
Lemma filter_sound (targets : list string) (repos : list Repo) (r : Repo) :
  targets ≠ [] →
  In r (LanguageFilter.filter (LanguageFilter.new targets) repos) →
  In r repos ∧ Spec.language_in targets (default "" (language r)) = true.
Proof.
  intros Hne. unfold LanguageFilter.filter.
  destruct targets as [|t ts]; [done|]. simpl length. simpl Nat.eqb.
  rewrite filter_In. by rewrite filter_keeps.
Qed.

(** C6 (as amended): with no target language the filter is the
    identity; otherwise it returns, in order, exactly the records whose
    language tag is up to case one of the targets, a missing tag being
    read as the empty tag (so that it matches only when the empty string
    is one of the targets). *)
Theorem filter_is_case_insensitive_membership (targets : list string) (repos : list Repo) :
  LanguageFilter.filter (LanguageFilter.new targets) repos
  = Spec.filter_missing_empty targets repos.
Proof.
  unfold LanguageFilter.filter, Spec.filter_missing_empty.
  destruct targets as [|t ts]; [reflexivity|].
  simpl length. simpl Nat.eqb. cbv iota.
  apply filter_ext. intros r. apply filter_keeps.
Qed.

(** C6 (as stated) fails: when the empty string is one of the targets, a
    record without a language tag passes the filter. *)
Lemma filter_keeps_untagged_record :
  LanguageFilter.filter (LanguageFilter.new [""]) [untagged_repo] = [untagged_repo]
  ∧ Spec.filter_missing_never [""] [untagged_repo] = []
  ∧ LanguageFilter.filter (LanguageFilter.new [""]) [untagged_repo]
    ≠ Spec.filter_missing_never [""] [untagged_repo].
Proof. repeat split. discriminate. Qed.

(** Where no target is empty the two readings agree. *)
Lemma filter_missing_readings_agree (targets : list string) (repos : list Repo) :
  Forall (λ t, t ≠ "") targets →
  Spec.filter_missing_empty targets repos = Spec.filter_missing_never targets repos.
Proof.
  intros Hall. unfold Spec.filter_missing_empty, Spec.filter_missing_never.
  destruct targets as [|t ts]; [reflexivity|].
  apply filter_ext. intros r. destruct (language r) as [lang|]; [reflexivity|].
  simpl default. unfold Spec.language_in.
  apply not_true_is_false. rewrite existsb_exists. intros (x & Hin & Hx).
  apply String.eqb_eq in Hx. simpl in Hx.
  rewrite Forall_forall in Hall. apply list_elem_of_In in Hin.
  apply (Hall x Hin). by destruct x.
Qed.

(** ** Scoring *)

Section ScoringFacts.
Context {E : RegExpEngine}.
Import SmartAnalyzer.

Lemma count_of_nonneg (c : completion nat) : 0 ≤ Spec.count_of c.
Proof. destruct c; simpl; lia. Qed.

Lemma keyword_count_nonneg (k text : string) : 0 ≤ Spec.keyword_count k text.
Proof.
  unfold Spec.keyword_count, Spec.whole_word_count, Spec.substring_count.
  destruct (truthy_str text); [|lia].
  pose proof (count_of_nonneg (match_count ("\b" +:+ toLowerCase k +:+ "\b") (toLowerCase text))).
  lia.
Qed.

Lemma sumZ_nonneg {A} (f : A → Z) (l : list A) :
  (∀ a, 0 ≤ f a) → 0 ≤ Spec.sumZ f l.
Proof. intros Hf. induction l as [|a l IH]; simpl; [lia|]. specialize (Hf a). lia. Qed.

Lemma sumZ_ext {A} (f g : A → Z) (l : list A) :
  (∀ a, In a l → f a = g a) → Spec.sumZ f l = Spec.sumZ g l.
Proof.
  induction l as [|a l IH]; simpl; intros H; [done|].
  rewrite (H a) by auto. rewrite IH; auto.
Qed.

Lemma sumZ_weighted {A} (f g h : A → Z) (l : list A) :
  Spec.sumZ f l * 5 + Spec.sumZ g l + Spec.sumZ h l * 3
  = Spec.sumZ (λ a, 5 * f a + 1 * g a + 3 * h a) l.
Proof. induction l as [|a l IH]; simpl; lia. Qed.

Lemma sumZ_zero {A} (f : A → Z) (l : list A) :
  (∀ a, f a = 0) → Spec.sumZ f l = 0.
Proof. intros Hf. induction l as [|a l IH]; simpl; [done|]. rewrite Hf, IH. done. Qed.

(** What one turn of the keyword loop computes, when it returns. *)
Lemma keywordMatches_returns (keyword text : string) (m : Z) :
  truthy_str text = true →
  keywordMatches keyword (toLowerCase text) = Return m →
  Spec.compiles keyword text ∧ m = Spec.keyword_count keyword text.
Proof.
  intros Ht. unfold keywordMatches, Spec.compiles, Spec.keyword_count,
    Spec.whole_word_count, Spec.substring_count. rewrite Ht.
  destruct (match_count ("\b" +:+ toLowerCase keyword +:+ "\b") (toLowerCase text))
    as [e|?]; simpl; [|discriminate].
  destruct (match_count (toLowerCase keyword) (toLowerCase text)) as [p|?];
    simpl; [|discriminate].
  intros [= <-]. eauto.
Qed.

Lemma keywordMatches_total (keyword text : string) :
  Spec.compiles keyword text →
  ∃ m, keywordMatches keyword (toLowerCase text) = Return m.
Proof.
  intros [[e He] [p Hp]]. unfold keywordMatches. rewrite He; simpl. rewrite Hp; simpl.
  eauto.
Qed.

Lemma findKeywordMatches_loop_returns (text : string) (keywords : list string) :
  truthy_str text = true →
  ∀ acc s s' acc',
    findKeywordMatches_loop keywords (toLowerCase text) acc s = Return (s', acc') →
    Forall (λ k, Spec.compiles k text) keywords
    ∧ s' = s + Spec.sumZ (λ k, Spec.keyword_count k text) keywords
    ∧ acc' = acc ++ List.filter (Spec.matched_in text) keywords.
Proof.
  intros Ht. induction keywords as [|k ks IH]; simpl; intros acc s s' acc' H.
  - injection H as <- <-. rewrite app_nil_r. split; [constructor|]. split; [lia|done].
  - destruct (keywordMatches k (toLowerCase text)) as [m|] eqn:Hk; simpl in H; [|discriminate].
    destruct (keywordMatches_returns _ _ _ Ht Hk) as [Hc ->].
    unfold Spec.matched_in at 1.
    destruct (0 <? Spec.keyword_count k text) eqn:Hpos.
    + apply IH in H as (Hall & -> & ->). split; [by constructor|].
      split; [lia|]. by rewrite <- app_assoc.
    + apply IH in H as (Hall & -> & ->). split; [by constructor|].
      split; [|done]. apply Z.ltb_ge in Hpos.
      pose proof (keyword_count_nonneg k text). lia.
Qed.

Lemma findKeywordMatches_loop_total (text : string) (keywords : list string) :
  Forall (λ k, Spec.compiles k text) keywords →
  ∀ acc s, ∃ r, findKeywordMatches_loop keywords (toLowerCase text) acc s = Return r.
Proof.
  induction 1 as [|k ks Hk Hks IH]; simpl; intros acc s; [eauto|].
  destruct (keywordMatches_total _ _ Hk) as [m ->]. simpl.
  destruct (0 <? m); apply IH.
Qed.

Lemma keyword_count_empty (k : string) : Spec.keyword_count k "" = 0.
Proof. reflexivity. Qed.

(** The score and the keywords of one field. *)
Lemma findKeywordMatches_returns (this : t) (text : string) (s : Z) (ks : list string) :
  findKeywordMatches this text = Return (s, ks) →
  s = Spec.sumZ (λ k, Spec.keyword_count k text) (topicKeywords this)
  ∧ ks = List.filter (Spec.matched_in text) (topicKeywords this).
Proof.
  unfold findKeywordMatches.
  destruct (truthy_str text) eqn:Ht; simpl.
  - destruct (topicKeywords this) as [|k ks'] eqn:Hkws; simpl length; simpl Nat.eqb; cbv iota.
    + intros [= <- <-]. done.
    + intros H. apply (findKeywordMatches_loop_returns _ _ Ht) in H as (_ & -> & ->).
      split; [lia|done].
  - intros [= <- <-]. destruct text; [|discriminate]. split.
    + symmetry. by apply sumZ_zero.
    + symmetry. rewrite <- (filter_false (topicKeywords this)). by apply filter_ext.
Qed.

Lemma findKeywordMatches_total (this : t) (text : string) :
  Forall (λ k, Spec.compiles k text) (topicKeywords this) →
  ∃ r, findKeywordMatches this text = Return r.
Proof.
  intros Hall. unfold findKeywordMatches.
  destruct (negb (truthy_str text) || (length (topicKeywords this) =? 0)%nat); [by eexists|].
  by apply findKeywordMatches_loop_total.
Qed.

End ScoringFacts.

Section AnalysisFacts.
Context {E : RegExpEngine}.
Import SmartAnalyzer.

Lemma scan_returns (this : t) (text : string) (s : Z) (ks : list string) :
  scan this text = Return (s, ks) →
  s = Spec.sumZ (λ k, Spec.keyword_count k text) (topicKeywords this)
  ∧ ks = List.filter (Spec.matched_in text) (topicKeywords this).
Proof.
  unfold scan. destruct (truthy_str text) eqn:Ht.
  - apply findKeywordMatches_returns.
  - destruct text; [|discriminate]. intros [= <- <-]. split.
    + symmetry. by apply sumZ_zero.
    + symmetry. rewrite <- (filter_false (topicKeywords this)). by apply filter_ext.
Qed.

Lemma scan_empty (this : t) : scan this "" = Return (0, []).
Proof. reflexivity. Qed.

Lemma scan_guard (this : t) (text : string) :
  scan this text = findKeywordMatches this text.
Proof. unfold scan, findKeywordMatches. by destruct (truthy_str text). Qed.

(** [basicAnalysis] is three scans and a removal of duplicates. *)
Lemma basicAnalysis_scans (this : t) (repo : Repo) :
  basicAnalysis this repo =
    (d ← scan this (Spec.field_text Spec.Description repo);
     r ← scan this (Spec.field_text Spec.Readme repo);
     p ← scan this (Spec.field_text Spec.Topics repo);
     mret {| repo_of := repo;
             relevanceScore := d.1 * 5 + r.1 + p.1 * 3;
             matchedKeywords := set_spread (d.2 ++ r.2 ++ p.2);
             aiSummary := None |}).
Proof.
  unfold basicAnalysis, Spec.field_text. rewrite !or_str_default.
  set (d := default "" (description repo)). set (r := default "" (readmeContent repo)).
  destruct (topics repo) as [ts|];
    [rewrite <- (scan_guard this (join " " ts)); destruct (scan this (join " " ts)) as [[? ?]|]
    |rewrite scan_empty];
    unfold scan;
    destruct (truthy_str d); destruct (truthy_str r); simpl;
    repeat match goal with
      | |- context [findKeywordMatches ?a ?b] =>
          destruct (findKeywordMatches a b) as [[? ?]|]; simpl
      end;
    rewrite ?app_nil_r, ?Z.add_0_r; try done;
    by rewrite <- ?app_assoc.
Qed.

(** The result of [basicAnalysis], when it returns. *)
Lemma basicAnalysis_returns (this : t) (repo : Repo) (a : AnalyzedRepo) :
  basicAnalysis this repo = Return a →
  repo_of a = repo
  ∧ aiSummary a = None
  ∧ relevanceScore a = Spec.score (topicKeywords this) repo
  ∧ matchedKeywords a =
      set_spread
        (List.filter (Spec.matched_in (Spec.field_text Spec.Description repo)) (topicKeywords this)
         ++ List.filter (Spec.matched_in (Spec.field_text Spec.Readme repo)) (topicKeywords this)
         ++ List.filter (Spec.matched_in (Spec.field_text Spec.Topics repo)) (topicKeywords this)).
Proof.
  rewrite basicAnalysis_scans.
  destruct (scan this (Spec.field_text Spec.Description repo)) as [[ds dk]|] eqn:Hd;
    [|intros; discriminate].
  destruct (scan this (Spec.field_text Spec.Readme repo)) as [[rs rk]|] eqn:Hr;
    [|intros; discriminate].
  destruct (scan this (Spec.field_text Spec.Topics repo)) as [[ps pk]|] eqn:Hp;
    [|intros; discriminate].
  intros [= <-]. cbn [repo_of aiSummary relevanceScore matchedKeywords fst snd].
  apply scan_returns in Hd as [-> ->].
  apply scan_returns in Hr as [-> ->].
  apply scan_returns in Hp as [-> ->].
  split; [done|]. split; [done|]. split; [|done].
  unfold Spec.score. apply sumZ_weighted.
Qed.

End AnalysisFacts.

(** ** Removal of duplicates *)

Section SetSpread.

Lemma includes_false (l : list string) (x : string) : includes l x = false ↔ x ∉ l.
Proof. unfold includes. by rewrite bool_decide_eq_false. Qed.

Lemma includes_ext (l1 l2 : list string) :
  (∀ x, x ∈ l1 ↔ x ∈ l2) → ∀ x, includes l1 x = includes l2 x.
Proof. intros H x. apply eq_true_iff_eq. by rewrite !includes_true. Qed.

(** Only the members of [seen] matter, not their order. *)
Lemma set_spread_go_ext (l : list string) :
  ∀ seen1 seen2, (∀ x, x ∈ seen1 ↔ x ∈ seen2) →
  set_spread_go seen1 l = set_spread_go seen2 l.
Proof.
  induction l as [|x l IH]; intros seen1 seen2 H; simpl; [done|].
  rewrite (includes_ext _ _ H x). destruct (includes seen2 x); [by apply IH|].
  f_equal. apply IH. intros y. rewrite !elem_of_cons. by rewrite H.
Qed.

Lemma set_spread_go_elem (l : list string) :
  ∀ seen x, x ∈ set_spread_go seen l ↔ x ∈ l ∧ x ∉ seen.
Proof.
  induction l as [|y l IH]; intros seen x; simpl.
  - rewrite elem_of_nil. naive_solver.
  - destruct (includes seen y) eqn:Hy.
    + apply includes_true in Hy. rewrite IH, elem_of_cons. naive_solver.
    + apply includes_false in Hy. rewrite !elem_of_cons, IH, elem_of_cons.
      destruct (decide (x = y)); naive_solver.
Qed.

Lemma set_spread_go_NoDup (l : list string) : ∀ seen, NoDup (set_spread_go seen l).
Proof.
  induction l as [|y l IH]; intros seen; simpl; [constructor|].
  destruct (includes seen y); [apply IH|].
  constructor; [|apply IH]. rewrite set_spread_go_elem, elem_of_cons. naive_solver.
Qed.

Lemma filter_twice {A} (f g : A → bool) (l : list A) :
  List.filter f (List.filter g l) = List.filter (λ x, g x && f x) l.
Proof.
  induction l as [|x l IH]; simpl; [done|].
  destruct (g x); simpl; [destruct (f x)|]; by rewrite IH.
Qed.

(** Having seen more beforehand amounts to filtering afterwards. *)
Lemma set_spread_go_seen (l : list string) :
  ∀ extra seen,
    set_spread_go (extra ++ seen) l
    = List.filter (λ x, negb (includes extra x)) (set_spread_go seen l).
Proof.
  induction l as [|x l IH]; intros extra seen; simpl; [done|].
  destruct (includes seen x) eqn:Hs.
  - apply includes_true in Hs.
    assert (includes (extra ++ seen) x = true) as ->
      by (apply includes_true, elem_of_app; auto).
    apply IH.
  - apply includes_false in Hs. simpl.
    destruct (includes extra x) eqn:He; simpl.
    + apply includes_true in He.
      assert (includes (extra ++ seen) x = true) as ->
        by (apply includes_true, elem_of_app; auto).
      rewrite <- IH. apply set_spread_go_ext.
      intros y. rewrite !elem_of_app, elem_of_cons. naive_solver.
    + apply includes_false in He.
      assert (includes (extra ++ seen) x = false) as ->
        by (apply includes_false; rewrite elem_of_app; naive_solver).
      f_equal. rewrite <- IH. apply set_spread_go_ext.
      intros y. rewrite !elem_of_cons, !elem_of_app, elem_of_cons. naive_solver.
Qed.

Lemma set_spread_go_app (l1 l2 : list string) :
  ∀ seen, set_spread_go seen (l1 ++ l2)
          = set_spread_go seen l1 ++ set_spread_go (l1 ++ seen) l2.
Proof.
  induction l1 as [|x l1 IH]; intros seen; simpl; [done|].
  destruct (includes seen x) eqn:Hs.
  - apply includes_true in Hs. rewrite IH. f_equal. apply set_spread_go_ext.
    intros y. rewrite elem_of_cons, !elem_of_app. naive_solver.
  - simpl. f_equal. rewrite IH. f_equal. apply set_spread_go_ext.
    intros y. rewrite !elem_of_cons, !elem_of_app, elem_of_cons. naive_solver.
Qed.

Lemma set_spread_go_filter (p : string → bool) (l : list string) :
  ∀ seen, set_spread_go seen (List.filter p l) = List.filter p (set_spread_go seen l).
Proof.
  induction l as [|x l IH]; intros seen; simpl; [done|].
  destruct (p x) eqn:Hp; simpl.
  - destruct (includes seen x); simpl; [apply IH|]. rewrite Hp. f_equal. apply IH.
  - rewrite IH. destruct (includes seen x); simpl; [done|]. rewrite Hp.
    change (x :: seen) with ([x] ++ seen). rewrite set_spread_go_seen, filter_twice.
    apply filter_ext. intros y. destruct (includes [x] y) eqn:Hy; simpl; [|done].
    apply includes_true, list_elem_of_singleton in Hy. by subst.
Qed.

Lemma set_spread_elem (l : list string) (x : string) : x ∈ set_spread l ↔ x ∈ l.
Proof. unfold set_spread. rewrite set_spread_go_elem, elem_of_nil. naive_solver. Qed.

Lemma set_spread_NoDup (l : list string) : NoDup (set_spread l).
Proof. apply set_spread_go_NoDup. Qed.

Lemma includes_filter (f : string → bool) (l : list string) (x : string) :
  x ∈ l → includes (List.filter f l) x = f x.
Proof.
  intros Hx. apply eq_true_iff_eq. rewrite includes_true, list_elem_of_In, filter_In.
  rewrite <- list_elem_of_In. naive_solver.
Qed.

(** Three filtered passes over the same list, duplicates removed:
    each element lands in the first pass that keeps it. *)
Lemma set_spread_three_passes (f g h : string → bool) (l : list string) :
  set_spread (List.filter f l ++ List.filter g l ++ List.filter h l)
  = List.filter f (set_spread l)
    ++ List.filter (λ x, negb (f x) && g x) (set_spread l)
    ++ List.filter (λ x, negb (f x) && negb (g x) && h x) (set_spread l).
Proof.
  unfold set_spread. rewrite !set_spread_go_app, !set_spread_go_seen, !set_spread_go_filter.
  rewrite !filter_twice. unfold set_spread_go at 1 3; fold set_spread_go.
  f_equal. f_equal; apply filter_ext_in; intros x Hx;
    apply list_elem_of_In in Hx; change (x ∈ set_spread l) in Hx;
    rewrite set_spread_elem in Hx;
    rewrite !includes_filter by done;
    by destruct (f x), (g x), (h x).
Qed.

End SetSpread.

(** ** The matched keywords and the score of a record *)

Section ScoringTheorems.
Context {E : RegExpEngine}.
Import SmartAnalyzer.

Lemma first_matched_in_passes (repo : Repo) (k : string) :
  let d := Spec.matched_in (Spec.field_text Spec.Description repo) k in
  let r := Spec.matched_in (Spec.field_text Spec.Readme repo) k in
  let p := Spec.matched_in (Spec.field_text Spec.Topics repo) k in
  Spec.first_matched_in Spec.Description repo k = d
  ∧ Spec.first_matched_in Spec.Readme repo k = negb d && r
  ∧ Spec.first_matched_in Spec.Topics repo k = negb d && negb r && p.
Proof.
  unfold Spec.first_matched_in, Spec.first_field. cbv zeta.
  by destruct (Spec.matched_in (Spec.field_text Spec.Description repo) k),
       (Spec.matched_in (Spec.field_text Spec.Readme repo) k),
       (Spec.matched_in (Spec.field_text Spec.Topics repo) k).
Qed.

(** C2: the matched keywords of a record hold no keyword twice, are
    at most as many as the configured keywords, and are ordered field
    after field (description, long-form text, topics), within a field in
    the order of the configuration, each keyword at the place of the
    first field in which it is matched. *)
Theorem matched_keywords_unique_and_ordered (this : t) (repo : Repo) (a : AnalyzedRepo) :
  basicAnalysis this repo = Return a →
  NoDup (matchedKeywords a)
  ∧ (length (matchedKeywords a) ≤ length (topicKeywords this))%nat
  ∧ matchedKeywords a = Spec.matched (topicKeywords this) repo.
Proof.
  intros H. apply basicAnalysis_returns in H as (_ & _ & _ & ->).
  split; [apply set_spread_NoDup|]. split.
  - apply NoDup_incl_length; [apply NoDup_ListNoDup, set_spread_NoDup|].
    intros k Hk. apply list_elem_of_In in Hk. rewrite set_spread_elem in Hk.
    rewrite !elem_of_app, !list_elem_of_In, !filter_In in Hk. naive_solver.
  - rewrite set_spread_three_passes. unfold Spec.matched.
    f_equal; [|f_equal]; apply filter_ext; intros k;
      destruct (first_matched_in_passes repo k) as (Hd & Hr & Hp); congruence.
Qed.

Lemma sumZ_le {A} (f g : A → Z) (l : list A) :
  (∀ a, f a ≤ g a) → Spec.sumZ f l ≤ Spec.sumZ g l.
Proof. intros H. induction l as [|a l IH]; simpl; [lia|]. specialize (H a). lia. Qed.

Lemma sumZ_lt {A} (f g : A → Z) (l : list A) (x : A) :
  (∀ a, f a ≤ g a) → In x l → f x < g x → Spec.sumZ f l < Spec.sumZ g l.
Proof.
  intros H Hin Hx. induction l as [|a l IH]; simpl; [done|].
  destruct Hin as [->|Hin].
  - pose proof (sumZ_le f g l H). lia.
  - specialize (IH Hin). specialize (H a). lia.
Qed.

Lemma whole_word_count_nonneg (k text : string) : 0 ≤ Spec.whole_word_count k text.
Proof. apply count_of_nonneg. Qed.

Lemma substring_count_nonneg (k text : string) : 0 ≤ Spec.substring_count k text.
Proof. apply count_of_nonneg. Qed.

(** C3: when a field is scored, the count of every keyword is the
    larger of its whole-word count and its substring count, and the score
    of the field is the sum of these counts over the keywords; it is
    smaller than the sum of both counts as soon as some keyword has both
    counts positive.  (An empty field is not matched at all and scores 0.) *)
Theorem keyword_count_is_max_not_sum (this : t) (text : string) (s : Z) (ks : list string) :
  findKeywordMatches this text = Return (s, ks) →
  (text = "" → s = 0)
  ∧ (text ≠ "" →
     Forall (λ k, Spec.compiles k text
                  ∧ keywordMatches k (toLowerCase text)
                    = Return (Z.max (Spec.whole_word_count k text)
                                    (Spec.substring_count k text)))
            (topicKeywords this)
     ∧ s = Spec.sumZ (λ k, Z.max (Spec.whole_word_count k text) (Spec.substring_count k text))
                     (topicKeywords this)
     ∧ ((∃ k, k ∈ topicKeywords this
              ∧ 0 < Spec.whole_word_count k text ∧ 0 < Spec.substring_count k text) →
        s < Spec.sumZ (λ k, Spec.whole_word_count k text + Spec.substring_count k text)
                      (topicKeywords this))).
Proof.
  intros H. split.
  { intros ->. by injection H as <- _. }
  intros Hne.
  assert (truthy_str text = true) as Ht by (by destruct text).
  assert (∀ k, Spec.keyword_count k text
               = Z.max (Spec.whole_word_count k text) (Spec.substring_count k text)) as Hcount
    by (intros k; unfold Spec.keyword_count; by rewrite Ht).
  pose proof (findKeywordMatches_returns _ _ _ _ H) as [-> _].
  split; [|split].
  - unfold findKeywordMatches in H. rewrite Ht in H. simpl in H.
    destruct (topicKeywords this) as [|k0 ks0]; [constructor|].
    simpl length in H. simpl Nat.eqb in H. cbv iota in H.
    apply (findKeywordMatches_loop_returns _ _ Ht) in H as (Hall & _ & _).
    eapply Forall_impl; [exact Hall|]. intros k Hk. split; [done|].
    destruct (keywordMatches_total _ _ Hk) as [m Hm]. rewrite Hm.
    apply (keywordMatches_returns _ _ _ Ht) in Hm as [_ ->]. by rewrite Hcount.
  - apply sumZ_ext. intros k _. apply Hcount.
  - intros (k & Hin & He & Hp). rewrite (sumZ_ext _ _ _ (λ k _, Hcount k)).
    apply (sumZ_lt _ _ _ k); [|by apply list_elem_of_In|lia].
    intros k'. pose proof (whole_word_count_nonneg k' text).
    pose proof (substring_count_nonneg k' text). lia.
Qed.

Lemma scan_keywords (this1 this2 : t) (text : string) :
  topicKeywords this1 = topicKeywords this2 → scan this1 text = scan this2 text.
Proof. intros H. unfold scan, findKeywordMatches. by rewrite H. Qed.

Lemma field_text_agree (r1 r2 : Repo) :
  description r1 = description r2 → readmeContent r1 = readmeContent r2 →
  topics r1 = topics r2 → ∀ f, Spec.field_text f r1 = Spec.field_text f r2.
Proof. intros Hd Hr Hp f. unfold Spec.field_text. by rewrite Hd, Hr, Hp. Qed.

Lemma score_nonneg (keywords : list string) (repo : Repo) :
  0 ≤ Spec.score keywords repo.
Proof.
  apply sumZ_nonneg. intros k.
  pose proof (keyword_count_nonneg k (Spec.field_text Spec.Description repo)).
  pose proof (keyword_count_nonneg k (Spec.field_text Spec.Readme repo)).
  pose proof (keyword_count_nonneg k (Spec.field_text Spec.Topics repo)).
  lia.
Qed.

(** C9: the outcome of scoring depends on the keyword list and on the
    three text fields only: two analyzers with the same keywords, on two
    records with the same text fields, both fail with the same error or
    both return the same score and the same matched keywords; and a
    score is never negative. *)
Theorem scoring_is_a_function_of_text_and_keywords (this1 this2 : t) (r1 r2 : Repo) :
  topicKeywords this1 = topicKeywords this2 →
  description r1 = description r2 →
  readmeContent r1 = readmeContent r2 →
  topics r1 = topics r2 →
  match basicAnalysis this1 r1, basicAnalysis this2 r2 with
  | Return a1, Return a2 =>
      relevanceScore a1 = relevanceScore a2
      ∧ matchedKeywords a1 = matchedKeywords a2
      ∧ 0 ≤ relevanceScore a1
  | Throw e1, Throw e2 => e1 = e2
  | _, _ => False
  end.
Proof.
  intros Hk Hd Hr Hp.
  pose proof (field_text_agree r1 r2 Hd Hr Hp) as Hf.
  destruct (basicAnalysis this1 r1) as [a1|e1] eqn:H1.
  - pose proof (basicAnalysis_returns _ _ _ H1) as (_ & _ & Hs & _).
    rewrite basicAnalysis_scans in H1. rewrite basicAnalysis_scans.
    rewrite <- !Hf, <- !(scan_keywords this1 this2) by done.
    destruct (scan this1 (Spec.field_text Spec.Description r1)) as [[ds dk]|]; [|done].
    destruct (scan this1 (Spec.field_text Spec.Readme r1)) as [[rs rk]|]; [|done].
    destruct (scan this1 (Spec.field_text Spec.Topics r1)) as [[ps pk]|]; [|done].
    injection H1 as <-. simpl. split; [done|]. split; [done|].
    simpl in Hs. rewrite Hs. apply score_nonneg.
  - rewrite basicAnalysis_scans in H1. rewrite basicAnalysis_scans.
    rewrite <- !Hf, <- !(scan_keywords this1 this2) by done.
    destruct (scan this1 (Spec.field_text Spec.Description r1)) as [[ds dk]|];
      [|by injection H1].
    destruct (scan this1 (Spec.field_text Spec.Readme r1)) as [[rs rk]|];
      [|by injection H1].
    destruct (scan this1 (Spec.field_text Spec.Topics r1)) as [[ps pk]|];
      [done|by injection H1].
Qed.

End ScoringTheorems.

(** C4: the score of a record is five times the count in the
    description, plus the count in the long-form text, plus three times
    the count in the topics, summed over the keywords; with the keyword
    "AI" and the description "An AI agent framework" alone, the score is 5
    and the matched keywords are ["AI"]. *)
Theorem score_is_weighted_sum_of_counts :
  (∀ (E : RegExpEngine) (this : SmartAnalyzer.t) (repo : Repo) (a : AnalyzedRepo),
     SmartAnalyzer.basicAnalysis this repo = Return a →
     relevanceScore a
     = Spec.sumZ (λ k, 5 * Spec.keyword_count k (Spec.field_text Spec.Description repo)
                       + 1 * Spec.keyword_count k (Spec.field_text Spec.Readme repo)
                       + 3 * Spec.keyword_count k (Spec.field_text Spec.Topics repo))
                 (SmartAnalyzer.topicKeywords this))
  ∧ (∀ (rest : RegExpEngine) (this : SmartAnalyzer.t) (repo : Repo),
       SmartAnalyzer.topicKeywords this = ["AI"] →
       description repo = Some "An AI agent framework" →
       readmeContent repo = None →
       topics repo = None →
       ∃ a, @SmartAnalyzer.basicAnalysis (ecma_engine rest) this repo = Return a
            ∧ relevanceScore a = 5
            ∧ matchedKeywords a = ["AI"]).
Proof.
  split.
  - intros E this repo a H. by apply basicAnalysis_returns in H as (_ & _ & -> & _).
  - intros rest this repo Hk Hd Hr Hp. rewrite basicAnalysis_scans.
    unfold Spec.field_text. rewrite Hd, Hr, Hp.
    unfold SmartAnalyzer.scan, SmartAnalyzer.findKeywordMatches. rewrite Hk.
    eexists. split; [vm_compute; reflexivity|]. split; reflexivity.
Qed.

(** ** The engine model on a few patterns *)

Example pattern_word_boundary :
  EcmaFragment.parse "\bai\b"
  = EcmaFragment.Parsed
      [[EcmaFragment.TAssert EcmaFragment.WordBoundary;
        EcmaFragment.TAtom (EcmaFragment.AChar "a") EcmaFragment.QOne;
        EcmaFragment.TAtom (EcmaFragment.AChar "i") EcmaFragment.QOne;
        EcmaFragment.TAssert EcmaFragment.WordBoundary]].
Proof. reflexivity. Qed.

Example pattern_nothing_to_repeat :
  EcmaFragment.parse "\bc++\b" = EcmaFragment.Invalid "Nothing to repeat"
  ∧ EcmaFragment.parse "c+?" = EcmaFragment.Parsed
      [[EcmaFragment.TAtom (EcmaFragment.AChar "c") (EcmaFragment.QPlus false)]]
  ∧ EcmaFragment.parse "(c)" = EcmaFragment.Outside.
Proof. by repeat split. Qed.

Example counts_are_case_insensitive_and_do_not_overlap :
  @match_count (ecma_engine silent_engine) "AI" "an ai agent framework, aiai" = Return 3%nat
  ∧ @match_count (ecma_engine silent_engine) "\bai\b" "an ai agent framework, aiai"
    = Return 1%nat
  ∧ @match_count (ecma_engine silent_engine) "aa" "aaaaa" = Return 2%nat.
Proof. by repeat split. Qed.

Example counts_of_empty_matches :
  @match_count (ecma_engine silent_engine) "" "abc" = Return 4%nat
  ∧ @match_count (ecma_engine silent_engine) "a*" "baaac" = Return 4%nat.
Proof. by repeat split. Qed.

(** ** Keywords as patterns *)

Section PlainKeywords.
Import EcmaFragment.

Lemma lower_ascii_plain (c : ascii) :
  is_syntax_char c = false → is_syntax_char (lower_ascii c) = false.
Proof.
  destruct c as [[] [] [] [] [] [] [] []]; vm_compute; intros H; first [exact H|reflexivity].
Qed.

Lemma parse_go_plain_char (c : ascii) (s : list ascii) rev_alts rev_cur q lz :
  is_syntax_char c = false →
  parse_go (c :: s) rev_alts rev_cur q lz
  = parse_go s rev_alts (TAtom (AChar c) QOne :: rev_cur) true false.
Proof.
  destruct c as [[] [] [] [] [] [] [] []]; intros H;
    first [discriminate H | reflexivity].
Qed.

Lemma parse_go_plain (tail : list ascii) (s : list ascii) :
  Forall (λ c, is_syntax_char c = false) s →
  (∀ rev_alts rev_cur q lz, ∃ d, parse_go tail rev_alts rev_cur q lz = Parsed d) →
  ∀ rev_alts rev_cur q lz, ∃ d, parse_go (s ++ tail) rev_alts rev_cur q lz = Parsed d.
Proof.
  intros Hs Htail. induction Hs as [|c s Hc Hs IH]; intros rev_alts rev_cur q lz.
  - apply Htail.
  - simpl app. rewrite parse_go_plain_char by done. apply IH.
Qed.

Lemma list_ascii_of_string_app (a b : string) :
  list_ascii_of_string (a +:+ b) = list_ascii_of_string a ++ list_ascii_of_string b.
Proof. induction a as [|c a IH]; simpl; [done|]. by rewrite IH. Qed.

Lemma toLowerCase_plain (k : string) :
  Spec.plain_keyword k → Spec.plain_keyword (toLowerCase k).
Proof.
  unfold Spec.plain_keyword. induction k as [|c k IH]; simpl; [done|].
  intros H. apply Forall_cons in H as [Hc Hk]. constructor; [|by apply IH].
  by apply lower_ascii_plain.
Qed.

(** Both patterns of a plain keyword are accepted by the parser. *)
Lemma plain_keyword_parses (k : string) :
  Spec.plain_keyword k →
  (∃ d, parse ("\b" +:+ toLowerCase k +:+ "\b") = Parsed d)
  ∧ (∃ d, parse (toLowerCase k) = Parsed d).
Proof.
  intros Hk. apply toLowerCase_plain in Hk. unfold parse. split.
  - rewrite !list_ascii_of_string_app.
    change (list_ascii_of_string "\b") with ["\"; "b"]%char. simpl app.
    change (parse_go ("\"%char :: "b"%char :: ?s) [] [] false false)
      with (parse_go s [] [TAssert WordBoundary] false false).
    apply parse_go_plain; [done|]. intros. by eexists.
  - rewrite <- (app_nil_r (list_ascii_of_string _)).
    apply parse_go_plain; [done|]. intros. by eexists.
Qed.

Lemma plain_keyword_compiles (rest : RegExpEngine) (k text : string) :
  Spec.plain_keyword k → @Spec.compiles (ecma_engine rest) k text.
Proof.
  intros Hk. destruct (plain_keyword_parses k Hk) as [[d1 H1] [d2 H2]].
  unfold Spec.compiles. simpl. rewrite H1, H2. eauto.
Qed.

Lemma unescaped_plus_throws (rest : RegExpEngine) (lowerText : string) :
  ∃ e, @SmartAnalyzer.keywordMatches (ecma_engine rest) "c++" lowerText = Throw e.
Proof. by eexists. Qed.

Lemma loop_throws_on_unescaped_plus (rest : RegExpEngine) (lowerText : string)
    (keywords : list string) :
  "c++" ∈ keywords →
  ∀ acc s, ∃ e,
    @SmartAnalyzer.findKeywordMatches_loop (ecma_engine rest) keywords lowerText acc s
    = Throw e.
Proof.
  induction keywords as [|k ks IH]; intros Hin acc s; [by apply elem_of_nil in Hin|].
  simpl. destruct (decide (k = "c++")) as [->|Hne].
  - destruct (unescaped_plus_throws rest lowerText) as [e ->]. by eexists.
  - apply elem_of_cons in Hin as [Heq|Hin]; [congruence|].
    destruct (SmartAnalyzer.keywordMatches k lowerText) as [m|e]; simpl; [|by eexists].
    destruct (0 <? m); by apply IH.
Qed.

End PlainKeywords.

(** C10: a keyword is used as a pattern as it stands.  Scoring returns
    for every text when no keyword holds a syntax character of the pattern
    language, but a keyword list that holds "c++" makes the scoring of
    every non-empty text throw. *)
Theorem unescaped_keyword_makes_scoring_throw (rest : RegExpEngine) :
  (∀ (this : SmartAnalyzer.t) (text : string),
     Forall Spec.plain_keyword (SmartAnalyzer.topicKeywords this) →
     ∃ r, @SmartAnalyzer.findKeywordMatches (ecma_engine rest) this text = Return r)
  ∧ (∀ (this : SmartAnalyzer.t) (text : string),
       "c++" ∈ SmartAnalyzer.topicKeywords this →
       text ≠ "" →
       ∃ e, @SmartAnalyzer.findKeywordMatches (ecma_engine rest) this text = Throw e).
Proof.
  split.
  - intros this text Hplain. apply findKeywordMatches_total.
    eapply Forall_impl; [exact Hplain|]. intros k Hk. by apply plain_keyword_compiles.
  - intros this text Hin Hne. unfold SmartAnalyzer.findKeywordMatches.
    destruct text as [|c text]; [done|]. simpl truthy_str. simpl negb.
    destruct (SmartAnalyzer.topicKeywords this) as [|k ks] eqn:Hk;
      [by apply elem_of_nil in Hin|].
    simpl length. simpl Nat.eqb. cbv iota. simpl orb. cbv iota.
    by apply loop_throws_on_unescaped_plus.
Qed.

(** ** Enrichment *)

Section EnricherFacts.
Context {T : Transport}.

Ltac run_monad :=
  unfold mbind, M_bind, mret, M_ret, try_catch, throw, lift, logError, call_request in *;
  simpl in *.

(** [fetchJson] is the request, with the failure logged. *)
Lemma fetchJson_outcome (method url : string) (s : state) :
  match request method url (world s) with
  | (Return d, w) =>
      fetchJson method url s = (Return d, {| world := w; error_log := error_log s |})
  | (Throw e, w) => ∃ s', fetchJson method url s = (Throw e, s')
  end.
Proof.
  unfold fetchJson. run_monad.
  destruct (request method url (world s)) as [[d|e] w]; [done|]. by eexists.
Qed.

Lemma getReadmeContent_outcome (owner repoName : string) (s : state) :
  match request "GET" (Spec.readme_url owner repoName) (world s) with
  | (Return d, w) =>
      ∃ readme, getReadmeContent owner repoName s
                = (Return readme, {| world := w; error_log := error_log s |})
  | (Throw e, w) => ∃ s', getReadmeContent owner repoName s = (Throw e, s')
  end.
Proof.
  unfold getReadmeContent. fold (Spec.readme_url owner repoName).
  pose proof (fetchJson_outcome "GET" (Spec.readme_url owner repoName) s) as H.
  destruct (request "GET" (Spec.readme_url owner repoName) (world s)) as [[d|e] w].
  - run_monad. rewrite H. destruct d as [data|]; [|by eexists].
    destruct (content data) as [c|]; [|by eexists].
    destruct (truthy_str c); by eexists.
  - destruct H as [s' H]. run_monad. rewrite H. by eexists.
Qed.

Lemma enrichSingleRepo_unusable_name (r : Repo) (s : state) :
  Spec.owner_and_name r = None →
  enrichSingleRepo r s = (Return r, s) ∨ ∃ e, enrichSingleRepo r s = (Throw e, s).
Proof.
  unfold Spec.owner_and_name, enrichSingleRepo.
  destruct (name r) as [nm|]; simpl; [|right; by eexists].
  destruct (truthy_str (or_str (Js.split "/" nm !! 0%nat) ""));
    destruct (truthy_str (or_str (Js.split "/" nm !! 1%nat) "")); simpl;
    first [discriminate | intros _; by left].
Qed.

(** With a usable name, the record is enriched when both requests are
    answered and is handed back unchanged otherwise. *)
Lemma enrichSingleRepo_usable_name (r : Repo) (owner repoName : string) (s : state) :
  Spec.owner_and_name r = Some (owner, repoName) →
  match request "GET" (Spec.readme_url owner repoName) (world s) with
  | (Return d, w) =>
      match request "GET" (Spec.metadata_url owner repoName) w with
      | (Return m, w') =>
          ∃ readme, enrichSingleRepo r s
                    = (Return (enriched r readme m),
                       {| world := w'; error_log := error_log s |})
      | (Throw e, w') => ∃ s', enrichSingleRepo r s = (Return r, s')
      end
  | (Throw e, w) => ∃ s', enrichSingleRepo r s = (Return r, s')
  end.
Proof.
  unfold Spec.owner_and_name, enrichSingleRepo.
  destruct (name r) as [nm|]; simpl; [|discriminate].
  destruct (truthy_str (or_str (Js.split "/" nm !! 0%nat) ""));
    destruct (truthy_str (or_str (Js.split "/" nm !! 1%nat) "")); simpl;
    try discriminate.
  intros [= <- <-].
  set (owner := or_str (Js.split "/" nm !! 0%nat) "").
  set (repoName := or_str (Js.split "/" nm !! 1%nat) "").
  pose proof (getReadmeContent_outcome owner repoName s) as Hreadme.
  destruct (request "GET" (Spec.readme_url owner repoName) (world s)) as [[d|e] w].
  - destruct Hreadme as [readme Hreadme].
    unfold getRepoMetadata. fold (Spec.metadata_url owner repoName).
    pose proof (fetchJson_outcome "GET" (Spec.metadata_url owner repoName)
                  {| world := w; error_log := error_log s |}) as Hmeta.
    simpl in Hmeta.
    destruct (request "GET" (Spec.metadata_url owner repoName) w) as [[m|e] w'].
    + exists readme. unfold try_catch at 1, mbind, M_bind. rewrite Hreadme, Hmeta. done.
    + destruct Hmeta as [s' Hmeta].
      unfold try_catch at 1, mbind at 1 2, M_bind. rewrite Hreadme, Hmeta.
      run_monad. repeat case_bool_decide; by eexists.
  - destruct Hreadme as [s' Hreadme].
    unfold try_catch at 1, mbind at 1 2, M_bind. rewrite Hreadme.
    run_monad. repeat case_bool_decide; by eexists.
Qed.

(** Whatever happens, a record comes out as itself or enriched. *)
Lemma enrichSingleRepo_shape (r e : Repo) (s s' : state) :
  enrichSingleRepo r s = (Return e, s') → e = r ∨ Spec.enriched_from r e.
Proof.
  intros H. destruct (Spec.owner_and_name r) as [[owner repoName]|] eqn:Hn.
  - pose proof (enrichSingleRepo_usable_name r owner repoName s Hn) as Hu.
    destruct (request "GET" (Spec.readme_url owner repoName) (world s)) as [[d|?] w].
    + destruct (request "GET" (Spec.metadata_url owner repoName) w) as [[m|?] w'].
      * destruct Hu as [readme Hu]. right. exists readme, m. congruence.
      * destruct Hu as [? Hu]. left. congruence.
    + destruct Hu as [? Hu]. left. congruence.
  - destruct (enrichSingleRepo_unusable_name r s Hn) as [Hu|[? Hu]]; [left|]; congruence.
Qed.

Lemma enrichSingleRepo_fails (r e : Repo) (s s' : state) :
  Spec.enrichment_fails r → enrichSingleRepo r s = (Return e, s') → e = r.
Proof.
  unfold Spec.enrichment_fails. intros Hf H.
  destruct (Spec.owner_and_name r) as [[owner repoName]|] eqn:Hn.
  - pose proof (enrichSingleRepo_usable_name r owner repoName s Hn) as Hu.
    destruct (request "GET" (Spec.readme_url owner repoName) (world s))
      as [[d|?] w] eqn:Hreq.
    + destruct (request "GET" (Spec.metadata_url owner repoName) w) as [[m|?] w'] eqn:Hreq'.
      * destruct Hf as [Hf|Hf].
        -- destruct (Hf (world s)) as (? & ? & Hf'). congruence.
        -- destruct (Hf w) as (? & ? & Hf'). congruence.
      * destruct Hu as [? Hu]. congruence.
    + destruct Hu as [? Hu]. congruence.
  - destruct (enrichSingleRepo_unusable_name r s Hn) as [Hu|[? Hu]]; congruence.
Qed.

Lemma enrichSingleRepo_succeeds (r : Repo) (s : state) :
  Spec.enrichment_succeeds r →
  ∃ e s', enrichSingleRepo r s = (Return e, s') ∧ Spec.enriched_from r e.
Proof.
  unfold Spec.enrichment_succeeds. intros Hs.
  destruct (Spec.owner_and_name r) as [[owner repoName]|] eqn:Hn; [|done].
  destruct Hs as [Hreadme Hmeta].
  pose proof (enrichSingleRepo_usable_name r owner repoName s Hn) as Hu.
  destruct (Hreadme (world s)) as (d & w & Hd). rewrite Hd in Hu.
  destruct (Hmeta w) as (m & w' & Hm). rewrite Hm in Hu.
  destruct Hu as [readme Hu]. eexists _, _. split; [exact Hu|]. by exists readme, m.
Qed.

Lemma enrichBatch_loop_outcome (repos : list Repo) :
  ∀ acc s, ∃ out s',
    enrichBatch_loop repos acc s = (Return (acc ++ out), s')
    ∧ Forall2 Spec.enrichment_outcome repos out.
Proof.
  induction repos as [|r rest IH]; intros acc s.
  - exists [], s. rewrite app_nil_r. by split.
  - simpl. unfold mbind at 1, M_bind, try_catch at 1.
    unfold mbind at 1, M_bind.
    destruct (enrichSingleRepo r s) as [[e|err] s1] eqn:Hr.
    + unfold mret at 1, M_ret.
      destruct (IH (acc ++ [e]) s1) as (out & s' & Hloop & Hall).
      exists (e :: out), s'. rewrite Hloop, <- app_assoc. split; [done|].
      constructor; [|done]. split; [|split].
      * by eapply enrichSingleRepo_shape.
      * intros Hf. by eapply enrichSingleRepo_fails.
      * intros Hs. destruct (enrichSingleRepo_succeeds r s Hs) as (e' & s'' & He & Hen).
        congruence.
    + run_monad.
      match goal with |- context [enrichBatch_loop rest ?a ?st] =>
        destruct (IH a st) as (out & s' & Hloop & Hall) end.
      exists (r :: out), s'. rewrite Hloop, <- app_assoc. split; [done|].
      constructor; [|done]. split; [by left|]. split; [done|].
      intros Hs. destruct (enrichSingleRepo_succeeds r s Hs) as (e' & s'' & He & Hen).
      congruence.
Qed.

(** [enrichBatch] always returns, with one record per input record. *)
Lemma enrichBatch_isolates_batch (repos : list Repo) (s : state) :
  ∃ out s', enrichBatch repos s = (Return out, s') ∧ length out = length repos.
Proof.
  destruct (enrichBatch_loop_outcome repos [] s) as (out & s' & H & Hall).
  exists out, s'. split; [exact H|]. symmetry. by eapply Forall2_length.
Qed.









End EnricherFacts.


(** ** Summaries and the quota *)

Section AnalyzerFacts.
Context {E : RegExpEngine} {T : Transport}.
Import SmartAnalyzer.

Ltac run_monad :=
  unfold mbind, M_bind, mret, M_ret, try_catch, throw, lift, logError in *;
  simpl in *.

Lemma generateAISummary_truthy (this : t) (repo : Repo) (ks : list string) (summary : string) :
  generateAISummary this repo ks = Return summary → truthy_str summary = true.
Proof.
  unfold generateAISummary.
  destruct (negb (truthy_str (or_str (openaiApiKey this) ""))); [discriminate|].
  by intros [= <-].
Qed.

(** [analyzeSingleRepo] throws exactly when [basicAnalysis] does;
    otherwise it returns the basic analysis, with a summary only when
    summaries are enabled, the score is positive and the counter is
    below the quota. *)
Lemma analyzeSingleRepo_outcome (this : t) (repo : Repo) (count : Z) (s : state) :
  match basicAnalysis this repo with
  | Throw e => analyzeSingleRepo this repo count s = (Throw e, s)
  | Return b =>
      ∃ a s', analyzeSingleRepo this repo count s = (Return a, s')
              ∧ world s' = world s
              ∧ repo_of a = repo_of b
              ∧ relevanceScore a = relevanceScore b
              ∧ matchedKeywords a = matchedKeywords b
              ∧ (aiSummary a = None ∨ has_summary a = true)
              ∧ (has_summary a = true →
                 enableAISummaries this = true
                 ∧ 0 < relevanceScore b
                 ∧ count < maxAISummaries this)
  end.
Proof.
  unfold analyzeSingleRepo. run_monad.
  destruct (basicAnalysis this repo) as [b|e] eqn:Hb; [|done].
  pose proof (basicAnalysis_returns _ _ _ Hb) as (_ & Hnone & _).
  destruct (enableAISummaries this) eqn:Hen; simpl.
  2:{ exists b, s. repeat split; auto; unfold has_summary in *;
        rewrite Hnone in *; discriminate. }
  destruct (0 <? relevanceScore b) eqn:Hpos; simpl.
  2:{ exists b, s. repeat split; auto; unfold has_summary in *;
        rewrite Hnone in *; discriminate. }
  destruct (count <? maxAISummaries this) eqn:Hq; simpl.
  2:{ exists b, s. repeat split; auto; unfold has_summary in *;
        rewrite Hnone in *; discriminate. }
  apply Z.ltb_lt in Hpos, Hq.
  destruct (generateAISummary this repo (matchedKeywords b)) as [summary|err] eqn:Hg.
  - apply generateAISummary_truthy in Hg.
    eexists _, _. split; [reflexivity|]. simpl. repeat split; auto.
    right. unfold has_summary. simpl. by destruct summary.
  - eexists _, _. split; [reflexivity|]. simpl. repeat split; auto.
Qed.

Lemma aiSummarized_cons (a : AnalyzedRepo) (l : list AnalyzedRepo) :
  aiSummarized (a :: l) = ((if has_summary a then 1 else 0) + aiSummarized l)%nat.
Proof. unfold aiSummarized. simpl. by destruct (has_summary a). Qed.

Lemma aiSummarized_app (l1 l2 : list AnalyzedRepo) :
  aiSummarized (l1 ++ l2) = (aiSummarized l1 + aiSummarized l2)%nat.
Proof. unfold aiSummarized. by rewrite List.filter_app, length_app. Qed.

(** The loop of [analyzeBatch]: what it appends to the array, when it
    returns. *)
Lemma analyzeBatch_loop_outcome (this : t) (repos : list Repo) :
  ∀ acc count s out s',
    analyzeBatch_loop this repos acc count s = (Return out, s') →
    ∃ new, out = acc ++ new
           ∧ world s' = world s
           ∧ Forall2 (λ repo a, ∃ b, basicAnalysis this repo = Return b
                                     ∧ relevanceScore a = relevanceScore b
                                     ∧ matchedKeywords a = matchedKeywords b
                                     ∧ repo_of a = repo
                                     ∧ Spec.unscored_unsummarized a) repos new
           ∧ Forall Spec.unscored_unsummarized new
           ∧ Z.of_nat (aiSummarized new) ≤ Z.max 0 (maxAISummaries this - count).
Proof.
  induction repos as [|repo rest IH]; intros acc count s out s' H.
  - injection H as <- <-. exists []. rewrite app_nil_r. repeat split; auto.
    change (aiSummarized []) with 0%nat. lia.
  - simpl in H. unfold mbind at 1, M_bind, try_catch at 1 in H.
    unfold mbind at 1, M_bind in H.
    pose proof (analyzeSingleRepo_outcome this repo count s) as Hone.
    destruct (basicAnalysis this repo) as [b|e] eqn:Hb.
    + destruct Hone as (a & s1 & Hone & Hw & Hrepo & Hscore & Hks & Hsum & Hquota).
      rewrite Hone in H. unfold mret at 1, M_ret in H.
      apply IH in H as (new & -> & Hw' & Hall & Hzero & Hbound).
      exists (a :: new). rewrite <- app_assoc. split; [done|].
      split; [congruence|]. split; [|split].
      * constructor; [|done]. exists b. split; [done|]. split; [done|].
        split; [done|]. split.
        -- rewrite Hrepo. by apply basicAnalysis_returns in Hb as (-> & _).
        -- intros Hz. destruct Hsum as [Hnone|Hsum]; [done|].
           apply Hquota in Hsum. lia.
      * constructor; [|done]. intros Hz. destruct Hsum as [Hnone|Hsum]; [done|].
        apply Hquota in Hsum. lia.
      * rewrite aiSummarized_cons. destruct (has_summary a) eqn:Hs; [|simpl; lia].
        destruct (Hquota eq_refl) as (_ & _ & Hlt). lia.
    + rewrite Hone in H. run_monad. discriminate.
Qed.

(** A batch in which the scoring of some record throws is lost as a
    whole: the handler of [analyzeBatch] scores the record again. *)
Lemma analyzeBatch_loop_throws (this : t) (repos : list Repo) :
  Exists (λ repo, ∃ e, basicAnalysis this repo = Throw e) repos →
  ∀ acc count s, ∃ e s', analyzeBatch_loop this repos acc count s = (Throw e, s').
Proof.
  induction repos as [|repo rest IH]; intros Hex acc count s;
    [by apply Exists_nil in Hex|].
  simpl. unfold mbind at 1, M_bind, try_catch at 1. unfold mbind at 1, M_bind.
  pose proof (analyzeSingleRepo_outcome this repo count s) as Hone.
  destruct (basicAnalysis this repo) as [b|e] eqn:Hb.
  - destruct Hone as (a & s1 & Hone & _). rewrite Hone. unfold mret at 1, M_ret.
    apply Exists_cons in Hex as [[e He]|Hex]; [congruence|]. by apply IH.
  - rewrite Hone. run_monad. by eexists _, _.
Qed.

(** Within one batch the quota holds. *)
Lemma analyzeBatch_within_quota (this : t) (repos : list Repo) (s s' : state)
    (out : list AnalyzedRepo) :
  analyzeBatch this repos s = (Return out, s') →
  Z.of_nat (aiSummarized out) ≤ Z.max 0 (maxAISummaries this).
Proof.
  intros H. apply analyzeBatch_loop_outcome in H as (new & -> & _ & _ & _ & Hb).
  simpl. by rewrite Z.sub_0_r in Hb.
Qed.

Lemma analyzeBatch_outcome (this : t) (repos : list Repo) (s s' : state)
    (out : list AnalyzedRepo) :
  analyzeBatch this repos s = (Return out, s') →
  length out = length repos ∧ Forall Spec.unscored_unsummarized out.
Proof.
  intros H. apply analyzeBatch_loop_outcome in H as (new & -> & _ & Hall & Hz & _).
  simpl. split; [|done]. symmetry. by eapply Forall2_length.
Qed.

Lemma process_batch_outcome (sa : t) (this r : Radar) (batch : list Repo) (s s' : state) :
  process_batch sa this batch s = (Return r, s') →
  ∃ analyzed, r = push_results this analyzed
              ∧ length analyzed = length batch
              ∧ Forall Spec.unscored_unsummarized analyzed.
Proof.
  unfold process_batch. unfold mbind at 1, M_bind.
  destruct (enrichBatch_isolates_batch batch s) as (enrichedBatch & s1 & -> & Hlen).
  unfold mbind at 1, M_bind.
  destruct (analyzeBatch sa enrichedBatch s1) as [[analyzed|e] s2] eqn:Ha; [|discriminate].
  intros [= <- <-]. exists analyzed. split; [done|].
  apply analyzeBatch_outcome in Ha as [Hl Hz]. split; [congruence|done].
Qed.

Lemma personalized_batches_unsummarized (sa : t) (batches : list (list Repo)) :
  ∀ this r s s',
    personalized_batches sa this batches s = (Return r, s') →
    Forall Spec.unscored_unsummarized (analysisResults this) →
    Forall Spec.unscored_unsummarized (analysisResults r).
Proof.
  induction batches as [|batch rest IH]; intros this r s s' H Hinit.
  - by injection H as <- <-.
  - simpl in H. unfold mbind at 1, M_bind in H.
    destruct (process_batch sa this batch s) as [[this'|e] s1] eqn:Hp; [|discriminate].
    apply process_batch_outcome in Hp as (analyzed & -> & _ & Hz).
    eapply IH; [exact H|]. simpl. by apply Forall_app.
Qed.

Lemma standalone_batches_unsummarized (sa : t) (batches : list (list Repo)) :
  ∀ this i r s s',
    standalone_batches sa this i batches s = (Return r, s') →
    Forall Spec.unscored_unsummarized (analysisResults this) →
    Forall Spec.unscored_unsummarized (analysisResults r).
Proof.
  induction batches as [|batch rest IH]; intros this i r s s' H Hinit.
  - by injection H as <- <-.
  - simpl in H. unfold mbind at 1, M_bind, try_catch at 1 in H.
    destruct (process_batch sa this batch s) as [[this'|e] s1] eqn:Hp.
    + apply process_batch_outcome in Hp as (analyzed & -> & _ & Hz).
      eapply IH; [exact H|]. simpl. by apply Forall_app.
    + run_monad. eapply IH; [exact H|done].
Qed.

(** The batch loop of the standalone radar always returns. *)
Lemma standalone_batches_total (sa : t) (batches : list (list Repo)) :
  ∀ this i s, ∃ r s', standalone_batches sa this i batches s = (Return r, s').
Proof.
  induction batches as [|batch rest IH]; intros this i s; [by eexists _, _|].
  simpl. unfold mbind at 1, M_bind, try_catch at 1.
  destruct (process_batch sa this batch s) as [[this'|e] s1]; [apply IH|].
  run_monad. apply IH.
Qed.

(** A batch that fails leaves the results as they were and is
    reported in the error log; the loop goes on with the next batch. *)
Lemma standalone_batches_skips_failed_batch (sa : t) (this : Radar) (i : nat)
    (batch : list Repo) (rest : list (list Repo)) (s s1 : state) (e : exn) :
  process_batch sa this batch s = (Throw e, s1) →
  standalone_batches sa this i (batch :: rest) s
  = standalone_batches sa this (S i) rest
      {| world := world s1;
         error_log := error_log s1
                      ++ [("Batch " +:+ pretty (i + 1)%nat +:+ " failed:", message_of e)] |}.
Proof.
  intros Hp. simpl. unfold mbind at 1, M_bind, try_catch at 1. rewrite Hp. by run_monad.
Qed.

(** The batch loop of the personalized radar stops at the first batch
    that fails. *)
Lemma personalized_batches_stops_at_failed_batch (sa : t) (this : Radar)
    (batch : list Repo) (rest : list (list Repo)) (s s1 : state) (e : exn) :
  process_batch sa this batch s = (Throw e, s1) →
  personalized_batches sa this (batch :: rest) s = (Throw e, s1).
Proof. intros Hp. simpl. unfold mbind at 1, M_bind. by rewrite Hp. Qed.

End AnalyzerFacts.

(** C5: in the result of [analyzeBatch] every record stands at the
    place of its input record, and a record whose score is 0 carries no
    summary, whatever the analyzer (summaries enabled or not, any quota)
    and whatever the records before it. *)
Theorem zero_score_is_never_summarized {E : RegExpEngine} {T : Transport}
    (this : SmartAnalyzer.t) (repos : list Repo) (s s' : state) (out : list AnalyzedRepo) :
  SmartAnalyzer.analyzeBatch this repos s = (Return out, s') →
  Forall2 (λ repo a, repo_of a = repo ∧ (relevanceScore a = 0 → aiSummary a = None))
          repos out.
Proof.
  intros H. apply analyzeBatch_loop_outcome in H as (new & -> & _ & Hall & _).
  simpl. eapply Forall2_impl; [exact Hall|].
  intros repo a (b & _ & _ & _ & Hrepo & Hz). by split.
Qed.

(** The same for one record, for any value of the counter. *)
Lemma analyzeSingleRepo_zero_score {E : RegExpEngine} {T : Transport}
    (this : SmartAnalyzer.t) (repo : Repo) (count : Z) (s s' : state) (a : AnalyzedRepo) :
  SmartAnalyzer.analyzeSingleRepo this repo count s = (Return a, s') →
  relevanceScore a = 0 → aiSummary a = None.
Proof.
  intros H Hz. pose proof (analyzeSingleRepo_outcome this repo count s) as Hone.
  destruct (SmartAnalyzer.basicAnalysis this repo) as [b|e]; [|congruence].
  destruct Hone as (a' & s1 & Hone & _ & _ & Hscore & _ & [Hnone|Hsum] & Hquota);
    rewrite Hone in H; injection H as <- <-; [done|].
  apply Hquota in Hsum. lia.
Qed.

(** And for a whole run of either radar. *)
Lemma run_zero_score_unsummarized {E : RegExpEngine} {T : Transport}
    (env : Env) (radar r : Radar) (s s' : state) :
  analysisResults radar = [] →
  PersonalizedRadar_analyzeRepos env radar s = (Return r, s')
  ∨ StandaloneRadar_analyzeRepos env radar s = (Return r, s') →
  Forall Spec.unscored_unsummarized (analysisResults r).
Proof.
  intros Hinit [H|H].
  - unfold PersonalizedRadar_analyzeRepos, new_ContentEnricher in H.
    unfold mbind at 1, M_bind in H.
    destruct (truthy_str (or_str (github_token env) "")); [|discriminate].
    eapply personalized_batches_unsummarized; [exact H|]. simpl. by rewrite Hinit.
  - unfold StandaloneRadar_analyzeRepos, new_ContentEnricher in H.
    unfold mbind at 1, M_bind in H.
    destruct (truthy_str (or_str (github_token env) "")); [|discriminate].
    eapply standalone_batches_unsummarized; [exact H|]. simpl. by rewrite Hinit.
Qed.

(** C1 (the code departs from it): the counter of summaries starts
    again at 0 in every batch.  With the default quota of 10 and eleven
    records that all match, the run of either radar hands out eleven
    summaries. *)
Theorem quota_is_counted_per_batch :
  let radar := new_Radar (keyword_config [] ["AI"]) eleven_ai_repos in
  SmartAnalyzer.maxAISummaries
    (SmartAnalyzer.new (config radar) (OPENAI_API_KEY keyed_env)) = 10
  ∧ (∃ r s', @PersonalizedRadar_analyzeRepos (ecma_engine silent_engine) offline
               keyed_env radar (@initial_state offline tt) = (Return r, s')
             ∧ aiSummarized (analysisResults r) = 11%nat)
  ∧ (∃ r s', @StandaloneRadar_analyzeRepos (ecma_engine silent_engine) offline
               keyed_env radar (@initial_state offline tt) = (Return r, s')
             ∧ aiSummarized (analysisResults r) = 11%nat).
Proof.
  split; [reflexivity|]. split; eexists _, _; (split; [vm_compute; reflexivity|reflexivity]).
Qed.

(** C7 (the code departs from it in one of the two radars): with the
    keyword "c++" the scoring of a described record throws.  On five
    described records followed by five bare ones, the personalized radar
    stops with the error of its first batch, while the standalone radar
    reports its two failed batches and keeps the four records of the
    batches that follow. *)
Theorem personalized_radar_aborts_on_failed_batch :
  let radar := new_Radar (keyword_config [] ["c++"]) five_described_five_bare in
  (∃ e s', @PersonalizedRadar_analyzeRepos (ecma_engine silent_engine) offline
             keyed_env radar (@initial_state offline tt) = (Throw e, s'))
  ∧ (∃ r s', @StandaloneRadar_analyzeRepos (ecma_engine silent_engine) offline
               keyed_env radar (@initial_state offline tt) = (Return r, s')
             ∧ length (filteredRepos r) = 10%nat
             ∧ length (analysisResults r) = 4%nat
             ∧ List.filter (String.prefix "Batch ") (map fst (error_log s'))
               = ["Batch 1 failed:"; "Batch 2 failed:"]).
Proof.
  split.
  - eexists _, _. vm_compute. reflexivity.
  - eexists _, _. split; [vm_compute; reflexivity|]. repeat split.
Qed.

(** ** The theorems at work on concrete records *)

Lemma matched_keywords_unique_and_ordered_witness :
  ∃ a, @SmartAnalyzer.basicAnalysis (ecma_engine silent_engine) (ai_analyzer None)
         (agent_repo "o/r") = Return a
       ∧ NoDup (matchedKeywords a)
       ∧ (length (matchedKeywords a) ≤ 3)%nat
       ∧ matchedKeywords a = ["agent"; "AI"].
Proof.
  eexists. split; [vm_compute; reflexivity|].
  pose proof (@matched_keywords_unique_and_ordered (ecma_engine silent_engine)
                (ai_analyzer None) (agent_repo "o/r") _ eq_refl) as (Hnd & Hlen & Heq).
  split; [exact Hnd|]. split; [exact Hlen|]. exact Heq.
Defined.

(** The field comes before the configuration: "AI", found in the
    description, precedes "agent", found in the long-form text only,
    although "agent" is configured first. *)
Example matched_keywords_field_before_configuration :
  ∃ a, @SmartAnalyzer.basicAnalysis (ecma_engine silent_engine)
         (SmartAnalyzer.new (keyword_config [] ["agent"; "AI"]) None)
         {| name := Some "o/r"; url := None; description := Some "AI tools";
            language := None; starsAdded := None; stars := None; forks := None;
            readmeContent := Some "An agent runtime"; topics := None;
            createdAt := None; updatedAt := None; forksCount := None;
            starsCount := None; watchersCount := None; openIssuesCount := None |}
       = Return a
       ∧ relevanceScore a = 6
       ∧ matchedKeywords a = ["AI"; "agent"].
Proof. eexists. split; [vm_compute; reflexivity|]. by split. Qed.

Lemma keyword_count_is_max_not_sum_witness :
  @SmartAnalyzer.findKeywordMatches (ecma_engine silent_engine) (ai_analyzer None)
    "An AI agent framework" = Return (3, ["agent"; "AI"; "agent"])
  ∧ 3 < @Spec.sumZ string
          (λ k, @Spec.whole_word_count (ecma_engine silent_engine) k "An AI agent framework"
                + @Spec.substring_count (ecma_engine silent_engine) k "An AI agent framework")
          ["agent"; "AI"; "agent"].
Proof.
  split; [vm_compute; reflexivity|].
  refine (proj2 (proj2 (proj2 (@keyword_count_is_max_not_sum (ecma_engine silent_engine)
            (ai_analyzer None) "An AI agent framework" 3 ["agent"; "AI"; "agent"] _) _)) _).
  - vm_compute; reflexivity.
  - discriminate.
  - exists "AI". split; [|split]; [|reflexivity|reflexivity].
    simpl. repeat constructor.
Defined.

Lemma score_is_weighted_sum_of_counts_witness :
  ∃ a, @SmartAnalyzer.basicAnalysis (ecma_engine silent_engine)
         (SmartAnalyzer.new (keyword_config [] ["AI"]) None)
         (bare_repo "o/r" "An AI agent framework" None) = Return a
       ∧ relevanceScore a = 5
       ∧ matchedKeywords a = ["AI"].
Proof.
  apply (proj2 score_is_weighted_sum_of_counts silent_engine); reflexivity.
Defined.

Lemma zero_score_is_never_summarized_witness :
  ∃ out s',
    @SmartAnalyzer.analyzeBatch (ecma_engine silent_engine) offline (ai_analyzer (Some true))
      [untagged_repo; agent_repo "o/r"] (@initial_state offline tt) = (Return out, s')
    ∧ Forall2 (λ repo a, repo_of a = repo ∧ (relevanceScore a = 0 → aiSummary a = None))
              [untagged_repo; agent_repo "o/r"] out.
Proof.
  eexists _, _. split; [vm_compute; reflexivity|].
  eapply (@zero_score_is_never_summarized (ecma_engine silent_engine) offline
            (ai_analyzer (Some true)) [untagged_repo; agent_repo "o/r"]
            (@initial_state offline tt)).
  vm_compute. reflexivity.
Defined.

Lemma scoring_is_a_function_of_text_and_keywords_witness :
  match @SmartAnalyzer.basicAnalysis (ecma_engine silent_engine) (ai_analyzer (Some true))
          (agent_repo "first/one"),
        @SmartAnalyzer.basicAnalysis (ecma_engine silent_engine) (ai_analyzer (Some false))
          (agent_repo "second/one") with
  | Return a1, Return a2 =>
      relevanceScore a1 = relevanceScore a2
      ∧ matchedKeywords a1 = matchedKeywords a2
      ∧ 0 ≤ relevanceScore a1
  | Throw e1, Throw e2 => e1 = e2
  | _, _ => False
  end.
Proof.
  apply (@scoring_is_a_function_of_text_and_keywords (ecma_engine silent_engine));
    reflexivity.
Defined.

Lemma unescaped_keyword_makes_scoring_throw_witness :
  (∃ r, @SmartAnalyzer.findKeywordMatches (ecma_engine silent_engine)
          (SmartAnalyzer.new (keyword_config [] ["LLM Agent"; "AI"]) None)
          "LLM Agent toolkit" = Return r)
  ∧ (∃ e, @SmartAnalyzer.findKeywordMatches (ecma_engine silent_engine)
            (SmartAnalyzer.new (keyword_config [] ["AI"; "c++"]) None)
            "A C++ compiler" = Throw e).
Proof.
  split.
  - apply (proj1 (unescaped_keyword_makes_scoring_throw silent_engine)).
    unfold Spec.plain_keyword. simpl. repeat constructor.
  - apply (proj2 (unescaped_keyword_makes_scoring_throw silent_engine)).
    + simpl. repeat constructor.
    + discriminate.
Defined.

(** * Further properties of the pipeline *)

(** ** Batches *)

Lemma batches_from_concat {A} (n : nat) (l : list A) :
  (1 ≤ n)%nat →
  ∀ fuel i, (length l - i ≤ fuel)%nat → concat (batches_from fuel n i l) = drop i l.
Proof.
  intros Hn. induction fuel as [|fuel IH]; intros i Hfuel; simpl.
  - symmetry. apply drop_ge. lia.
  - destruct (i <? length l)%nat eqn:Hi.
    + apply Nat.ltb_lt in Hi. simpl. rewrite IH by lia.
      unfold slice. replace (i + n - i)%nat with n by lia.
      rewrite <- drop_drop. apply take_drop.
    + apply Nat.ltb_ge in Hi. symmetry. by apply drop_ge.
Qed.

Lemma batches_from_past_end {A} (fuel n i : nat) (l : list A) :
  (length l ≤ i)%nat → batches_from fuel n i l = [].
Proof.
  intros Hi. destruct fuel as [|fuel]; simpl; [done|].
  apply Nat.ltb_ge in Hi. by rewrite Hi.
Qed.

Lemma batches_from_sizes {A} (n : nat) (l : list A) :
  (1 ≤ n)%nat →
  ∀ fuel i, (length l - i ≤ fuel)%nat →
    Forall (λ b, (1 ≤ length b ≤ n)%nat) (batches_from fuel n i l)
    ∧ (∀ j b, batches_from fuel n i l !! j = Some b →
              (S j < length (batches_from fuel n i l))%nat → length b = n)
    ∧ (length (batches_from fuel n i l) * n < length l - i + n)%nat
    ∧ (length l - i ≤ length (batches_from fuel n i l) * n)%nat.
Proof.
  intros Hn. induction fuel as [|fuel IH]; intros i Hfuel; simpl.
  - repeat split; [constructor|done|lia|lia].
  - destruct (i <? length l)%nat eqn:Hi.
    + apply Nat.ltb_lt in Hi.
      destruct (IH (i + n)%nat ltac:(lia)) as (Hall & Hfull & Hup & Hlow).
      assert (length (slice i (i + n) l) = n `min` (length l - i))%nat as Hlen.
      { unfold slice. rewrite length_take, length_drop. lia. }
      split; [|split; [|split]].
      * constructor; [lia|done].
      * intros [|j] b Hb Hj; simpl in *.
        -- injection Hb as <-. rewrite Hlen.
           destruct (batches_from fuel n (i + n) l) as [|b' bs] eqn:Hbs; [simpl in Hj; lia|].
           simpl in Hlow. destruct fuel as [|fuel']; [done|]. simpl in Hbs.
           destruct (i + n <? length l)%nat eqn:Hin; [|done].
           apply Nat.ltb_lt in Hin. lia.
        -- apply (Hfull j b Hb). lia.
      * simpl. destruct (decide (length l ≤ i + n)%nat) as [Hend|Hend].
        -- rewrite (batches_from_past_end fuel n (i + n) l Hend). simpl. lia.
        -- lia.
      * simpl. lia.
    + apply Nat.ltb_ge in Hi. repeat split; [constructor|done|simpl; lia|simpl; lia].
Qed.

Lemma sublist_concat {A} (kept batches : list (list A)) :
  kept `sublist_of` batches → concat kept `sublist_of` concat batches.
Proof.
  induction 1 as [|b kept batches _ IH|b kept batches _ IH]; simpl.
  - constructor.
  - by apply sublist_app.
  - by apply sublist_inserts_l.
Qed.

Lemma make_batches_concat_lemma {A} (batchSize : nat) (l : list A) :
  (1 ≤ batchSize)%nat → concat (make_batches batchSize l) = l.
Proof.
  intros Hn. unfold make_batches. rewrite (batches_from_concat batchSize l Hn) by lia.
  apply drop_0.
Qed.

Lemma make_batches_length_lemma {A} (batchSize : nat) (l : list A) :
  (1 ≤ batchSize)%nat →
  length (make_batches batchSize l) = ((length l + batchSize - 1) / batchSize)%nat.
Proof.
  intros Hn. unfold make_batches.
  destruct (batches_from_sizes batchSize l Hn (length l) 0%nat ltac:(lia))
    as (_ & _ & Hup & Hlow).
  set (k := length (batches_from (length l) batchSize 0 l)) in *.
  apply (Nat.div_unique _ _ _ (length l + batchSize - 1 - k * batchSize));
    rewrite ?(Nat.mul_comm batchSize k); lia.
Qed.

(** X1: cutting a list into batches of a positive size loses, repeats and
    reorders nothing: the batches, put end to end, are the list. *)
Theorem make_batches_concat {A} (batchSize : nat) (l : list A) :
  (1 ≤ batchSize)%nat → concat (make_batches batchSize l) = l.
Proof.
  intros Hn. unfold make_batches. rewrite (batches_from_concat batchSize l Hn) by lia.
  apply drop_0.
Qed.

(** X2: with a positive batch size no batch is empty, no batch is
    larger than the batch size, every batch but the last is full, and
    there are as many batches as the length divided by the batch size,
    rounded up. *)
Theorem make_batches_sizes {A} (batchSize : nat) (l : list A) :
  (1 ≤ batchSize)%nat →
  Forall (λ b, (1 ≤ length b ≤ batchSize)%nat) (make_batches batchSize l)
  ∧ (∀ j b, make_batches batchSize l !! j = Some b →
            (S j < length (make_batches batchSize l))%nat → length b = batchSize)
  ∧ length (make_batches batchSize l) = ((length l + batchSize - 1) / batchSize)%nat.
Proof.
  intros Hn. unfold make_batches.
  destruct (batches_from_sizes batchSize l Hn (length l) 0%nat ltac:(lia))
    as (Hall & Hfull & Hup & Hlow).
  split; [done|]. split; [done|].
  set (k := length (batches_from (length l) batchSize 0 l)) in *.
  apply (Nat.div_unique _ _ _ (length l + batchSize - 1 - k * batchSize));
    rewrite ?(Nat.mul_comm batchSize k); lia.
Qed.

(** ** Scores and matched keywords *)

Section ScoreAndKeywords.
Context {E : RegExpEngine}.
Import SmartAnalyzer.

Lemma sumZ_zero_iff {A} (f : A → Z) (l : list A) :
  (∀ a, 0 ≤ f a) → Spec.sumZ f l = 0 ↔ ∀ a, In a l → f a = 0.
Proof.
  intros Hf. induction l as [|x l IH]; simpl.
  - split; [by intros _ a []|done].
  - pose proof (Hf x). pose proof (sumZ_nonneg f l Hf). split.
    + intros Hs a [<-|Ha]; [lia|]. apply IH; [lia|done].
    + intros Hall. rewrite (Hall x) by auto. rewrite (proj2 IH); [done|]. auto.
Qed.

Lemma basicAnalysis_keyword_elem (this : t) (repo : Repo) (a : AnalyzedRepo) (k : string) :
  basicAnalysis this repo = Return a →
  k ∈ matchedKeywords a ↔
    k ∈ topicKeywords this
    ∧ (0 < Spec.keyword_count k (Spec.field_text Spec.Description repo)
       ∨ 0 < Spec.keyword_count k (Spec.field_text Spec.Readme repo)
       ∨ 0 < Spec.keyword_count k (Spec.field_text Spec.Topics repo)).
Proof.
  intros H. apply basicAnalysis_returns in H as (_ & _ & _ & ->).
  rewrite set_spread_elem, !elem_of_app, !list_elem_of_In, !filter_In.
  unfold Spec.matched_in. rewrite !Z.ltb_lt. tauto.
Qed.

(** X3: a keyword is reported for a record exactly when it is one of the
    configured keywords, with the casing of the configuration, and is
    counted at least once in the description, the long-form text or the
    topics. *)
Theorem matched_keyword_iff (this : t) (repo : Repo) (a : AnalyzedRepo) (k : string) :
  basicAnalysis this repo = Return a →
  k ∈ matchedKeywords a ↔
    k ∈ topicKeywords this
    ∧ (0 < Spec.keyword_count k (Spec.field_text Spec.Description repo)
       ∨ 0 < Spec.keyword_count k (Spec.field_text Spec.Readme repo)
       ∨ 0 < Spec.keyword_count k (Spec.field_text Spec.Topics repo)).
Proof. apply basicAnalysis_keyword_elem. Qed.

(** X4: the score of a record is 0 exactly when no keyword is reported
    for it. *)
Theorem score_zero_iff_no_keyword (this : t) (repo : Repo) (a : AnalyzedRepo) :
  basicAnalysis this repo = Return a →
  relevanceScore a = 0 ↔ matchedKeywords a = [].
Proof.
  intros H. pose proof (basicAnalysis_returns _ _ _ H) as (_ & _ & Hs & _).
  rewrite Hs. unfold Spec.score. rewrite sumZ_zero_iff.
  2:{ intros k.
      pose proof (keyword_count_nonneg k (Spec.field_text Spec.Description repo)).
      pose proof (keyword_count_nonneg k (Spec.field_text Spec.Readme repo)).
      pose proof (keyword_count_nonneg k (Spec.field_text Spec.Topics repo)). lia. }
  split.
  - intros Hall. destruct (matchedKeywords a) as [|k ks] eqn:Hm; [done|].
    assert (k ∈ matchedKeywords a) as Hk by (rewrite Hm; left).
    apply (basicAnalysis_keyword_elem this repo a k H) in Hk as [Hin Hpos].
    apply list_elem_of_In in Hin. specialize (Hall k Hin).
    pose proof (keyword_count_nonneg k (Spec.field_text Spec.Description repo)).
    pose proof (keyword_count_nonneg k (Spec.field_text Spec.Readme repo)).
    pose proof (keyword_count_nonneg k (Spec.field_text Spec.Topics repo)). lia.
  - intros Hnil k Hin.
    pose proof (keyword_count_nonneg k (Spec.field_text Spec.Description repo)).
    pose proof (keyword_count_nonneg k (Spec.field_text Spec.Readme repo)).
    pose proof (keyword_count_nonneg k (Spec.field_text Spec.Topics repo)).
    destruct (decide (5 * Spec.keyword_count k (Spec.field_text Spec.Description repo)
                      + 1 * Spec.keyword_count k (Spec.field_text Spec.Readme repo)
                      + 3 * Spec.keyword_count k (Spec.field_text Spec.Topics repo) = 0))
      as [Hz|Hnz]; [done|].
    assert (k ∈ matchedKeywords a) as Hk.
    { apply (basicAnalysis_keyword_elem this repo a k H). split; [by apply list_elem_of_In|lia]. }
    rewrite Hnil in Hk. by apply elem_of_nil in Hk.
Qed.

Lemma scan_no_keywords (this : t) (text : string) :
  topicKeywords this = [] → scan this text = Return (0, []).
Proof.
  intros Hk. unfold scan, findKeywordMatches. rewrite Hk.
  by destruct (truthy_str text).
Qed.

(** X5: without keywords, or on a record without text (no description,
    no long-form text, no topic), scoring builds no pattern: it returns
    score 0 and no keyword, whatever the engine and whatever the
    keywords. *)
Theorem scoring_without_keywords_or_text (this : t) (repo : Repo) :
  topicKeywords this = []
  ∨ (Spec.field_text Spec.Description repo = ""
     ∧ Spec.field_text Spec.Readme repo = ""
     ∧ Spec.field_text Spec.Topics repo = "") →
  basicAnalysis this repo
  = Return {| repo_of := repo; relevanceScore := 0; matchedKeywords := []; aiSummary := None |}.
Proof.
  intros H. rewrite basicAnalysis_scans. destruct H as [Hk|(Hd & Hr & Hp)].
  - by rewrite !scan_no_keywords.
  - by rewrite Hd, Hr, Hp.
Qed.

End ScoreAndKeywords.

(** ** Summaries within a batch *)

Section BatchSummaries.
Context {E : RegExpEngine} {T : Transport}.
Import SmartAnalyzer.

Ltac run_monad :=
  unfold mbind, M_bind, mret, M_ret, try_catch, throw, lift, logError in *;
  simpl in *.

Lemma analyzeBatch_loop_total (this : t) (repos : list Repo) :
  Forall (λ repo, ∃ b, basicAnalysis this repo = Return b) repos →
  ∀ acc count s, ∃ out s', analyzeBatch_loop this repos acc count s = (Return out, s').
Proof.
  induction 1 as [|repo rest [b Hb] Hrest IH]; intros acc count s; [by eexists _, _|].
  simpl. unfold mbind at 1, M_bind, try_catch at 1. unfold mbind at 1, M_bind.
  pose proof (analyzeSingleRepo_outcome this repo count s) as Hone. rewrite Hb in Hone.
  destruct Hone as (a & s1 & -> & _). unfold mret at 1, M_ret. apply IH.
Qed.

(** X6: [analyzeBatch] returns exactly when the scoring of every record
    of the batch returns: its handler scores the failed record again, so
    that a record whose scoring throws makes the whole batch throw. *)
Theorem analyzeBatch_returns_iff (this : t) (repos : list Repo) (s : state) :
  (∃ out s', analyzeBatch this repos s = (Return out, s'))
  ↔ Forall (λ repo, ∃ b, basicAnalysis this repo = Return b) repos.
Proof.
  split.
  - intros (out & s' & H).
    apply analyzeBatch_loop_outcome in H as (new & _ & _ & Hall & _).
    clear -Hall. induction Hall as [|repo a rest new (b & Hb & _) _ IH]; constructor; eauto.
  - intros Hall. by apply analyzeBatch_loop_total.
Qed.

(** With summaries enabled and a key at hand, a record gets a summary
    exactly when its score is positive and the counter is below the
    quota. *)
Lemma analyzeSingleRepo_enabled (this : t) (repo : Repo) (count : Z) (s : state)
    (b : AnalyzedRepo) :
  enableAISummaries this = true →
  truthy_str (or_str (openaiApiKey this) "") = true →
  basicAnalysis this repo = Return b →
  ∃ a, analyzeSingleRepo this repo count s = (Return a, s)
       ∧ relevanceScore a = relevanceScore b
       ∧ has_summary a = (0 <? relevanceScore b) && (count <? maxAISummaries this).
Proof.
  intros Hen Hkey Hb. unfold analyzeSingleRepo. run_monad. rewrite Hb, Hen. simpl.
  pose proof (basicAnalysis_returns _ _ _ Hb) as (_ & Hnone & _).
  destruct ((0 <? relevanceScore b) && (count <? maxAISummaries this)) eqn:Hc.
  - unfold generateAISummary. rewrite Hkey. simpl. eexists. split; [reflexivity|].
    split; [done|]. reflexivity.
  - exists b. split; [done|]. split; [done|]. unfold has_summary. by rewrite Hnone.
Qed.

Lemma analyzeBatch_loop_count (this : t) (repos : list Repo) :
  enableAISummaries this = true →
  truthy_str (or_str (openaiApiKey this) "") = true →
  ∀ acc count s out s',
    analyzeBatch_loop this repos acc count s = (Return out, s') →
    ∃ new, out = acc ++ new
           ∧ Z.of_nat (aiSummarized new)
             = Z.min (Z.of_nat (positives new)) (Z.max 0 (maxAISummaries this - count)).
Proof.
  intros Hen Hkey. induction repos as [|repo rest IH]; intros acc count s out s' H.
  - injection H as <- <-. exists []. rewrite app_nil_r. split; [done|].
    change (aiSummarized []) with 0%nat. change (positives []) with 0%nat. lia.
  - simpl in H. unfold mbind at 1, M_bind, try_catch at 1 in H.
    unfold mbind at 1, M_bind in H.
    destruct (basicAnalysis this repo) as [b|e] eqn:Hb.
    + destruct (analyzeSingleRepo_enabled this repo count s b Hen Hkey Hb)
        as (a & Hone & Hscore & Hsum).
      rewrite Hone in H. unfold mret at 1, M_ret in H.
      apply IH in H as (new & -> & Hcount).
      exists (a :: new). rewrite <- app_assoc. split; [done|].
      rewrite aiSummarized_cons. unfold positives in *. simpl List.filter.
      rewrite Hscore, Hsum in *.
      destruct (0 <? relevanceScore b) eqn:Hpos; simpl in *.
      * destruct (count <? maxAISummaries this) eqn:Hq; simpl length.
        -- apply Z.ltb_lt in Hq. lia.
        -- apply Z.ltb_ge in Hq. lia.
      * lia.
    + pose proof (analyzeSingleRepo_outcome this repo count s) as Hone.
      rewrite Hb in Hone. rewrite Hone in H. run_monad. discriminate.
Qed.

Lemma analyzeBatch_loop_disabled (this : t) (repos : list Repo) :
  enableAISummaries this = false →
  ∀ acc count s out s',
    analyzeBatch_loop this repos acc count s = (Return out, s') →
    ∃ new, out = acc ++ new ∧ aiSummarized new = 0%nat.
Proof.
  intros Hen. induction repos as [|repo rest IH]; intros acc count s out s' H.
  - injection H as <- <-. exists []. by rewrite app_nil_r.
  - simpl in H. unfold mbind at 1, M_bind, try_catch at 1 in H.
    unfold mbind at 1, M_bind in H.
    pose proof (analyzeSingleRepo_outcome this repo count s) as Hone.
    destruct (basicAnalysis this repo) as [b|e] eqn:Hb.
    + destruct Hone as (a & s1 & Hone & _ & _ & _ & _ & _ & Hq).
      rewrite Hone in H. unfold mret at 1, M_ret in H.
      apply IH in H as (new & -> & Hcount).
      exists (a :: new). rewrite <- app_assoc. split; [done|].
      rewrite aiSummarized_cons, Hcount.
      destruct (has_summary a) eqn:Hs; [|done].
      destruct (Hq eq_refl) as (Hen' & _). congruence.
    + rewrite Hone in H. run_monad. discriminate.
Qed.

(** X7: in the result of one [analyzeBatch] by a constructed analyzer,
    the number of summaries is the number of records with a positive
    score, capped by the quota; it is 0 when summaries are disabled or no
    key is set. *)
Theorem analyzeBatch_summary_count (config : Config) (env_key : option string)
    (repos : list Repo) (s s' : state) (out : list AnalyzedRepo) :
  analyzeBatch (new config env_key) repos s = (Return out, s') →
  Z.of_nat (aiSummarizedRepos (getAnalysisStats out))
  = if enableAISummaries (new config env_key)
    then Z.min (Z.of_nat (relevantRepos (getAnalysisStats out)))
               (Z.max 0 (maxAISummaries (new config env_key)))
    else 0.
Proof.
  intros H. destruct (enableAISummaries (new config env_key)) eqn:Hen.
  - apply analyzeBatch_loop_count in H as (new & -> & Hc); [|done|].
    + simpl. rewrite Z.sub_0_r in Hc. exact Hc.
    + unfold new in *. simpl in *. by apply andb_true_iff in Hen as [_ Hk].
  - apply analyzeBatch_loop_disabled in H as (new & -> & Hc); [|done].
    simpl. unfold aiSummarized in Hc. by rewrite Hc.
Qed.

Lemma filter_length_mono {A} (f g : A → bool) (l : list A) :
  (∀ a, In a l → f a = true → g a = true) →
  (length (List.filter f l) ≤ length (List.filter g l))%nat.
Proof.
  induction l as [|x l IH]; intros H; simpl; [done|].
  assert (length (List.filter f l) ≤ length (List.filter g l))%nat as IH'
    by (apply IH; intros a Ha; apply H; by right).
  destruct (f x) eqn:Hf.
  - rewrite (H x) by (done || by left). simpl. lia.
  - destruct (g x); simpl; lia.
Qed.

(** X8: the statistics of the result of [analyzeBatch] are ordered: the
    summarized records are among the relevant ones (positive score),
    which are among the analyzed ones, and every record of the batch is
    analyzed. *)
Theorem analysis_stats_ordered (this : t) (repos : list Repo) (s s' : state)
    (out : list AnalyzedRepo) :
  analyzeBatch this repos s = (Return out, s') →
  (aiSummarizedRepos (getAnalysisStats out) ≤ relevantRepos (getAnalysisStats out))%nat
  ∧ (relevantRepos (getAnalysisStats out) ≤ totalAnalyzed (getAnalysisStats out))%nat
  ∧ totalAnalyzed (getAnalysisStats out) = length repos.
Proof.
  intros H. apply analyzeBatch_loop_outcome in H as (new & -> & _ & Hall & _).
  simpl. split; [|split].
  - apply filter_length_mono. intros a Ha Hs.
    assert (Forall (λ a, has_summary a = true → 0 < relevanceScore a) new) as Hpos.
    { clear -Hall. induction Hall as [|repo a' rest new' (b & Hb & Hscore & _ & _ & Hz) _ IH];
        constructor; [|done].
      intros Hs'. apply basicAnalysis_returns in Hb as (_ & _ & Hb & _).
      pose proof (score_nonneg (topicKeywords this) repo).
      destruct (decide (relevanceScore a' = 0)) as [H0|H0]; [|lia].
      apply Hz in H0. unfold has_summary in Hs'. by rewrite H0 in Hs'. }
    rewrite Forall_forall in Hpos. apply list_elem_of_In in Ha.
    apply Z.ltb_lt. by apply Hpos.
  - apply filter_length_le.
  - symmetry. by eapply Forall2_length.
Qed.

End BatchSummaries.

(** ** The error log *)

Section LogFacts.
Context {T : Transport}.
Variable P : log_entry → Prop.

Lemma logs_only_ret {A} (a : A) : logs_only P (mret a).
Proof. intros s c s' [= <- <-]. exists []. by rewrite app_nil_r. Qed.

Lemma logs_only_throw {A} (e : exn) : logs_only P (@throw T A e).
Proof. intros s c s' [= <- <-]. exists []. by rewrite app_nil_r. Qed.

Lemma logs_only_lift {A} (c : completion A) : logs_only P (lift c).
Proof. intros s c' s' [= <- <-]. exists []. by rewrite app_nil_r. Qed.

Lemma logs_only_call_request (method url : string) : logs_only P (call_request method url).
Proof.
  intros s c s'. unfold call_request. destruct (request method url (world s)) as [r w].
  intros [= <- <-]. exists []. by rewrite app_nil_r.
Qed.

Lemma logs_only_logError (text detail : string) :
  P (text, detail) → logs_only P (logError text detail).
Proof. intros HP s c s' [= <- <-]. exists [(text, detail)]. split; [done|by constructor]. Qed.

Lemma logs_only_bind {A B} (m : M A) (k : A → M B) :
  logs_only P m → (∀ a, logs_only P (k a)) → logs_only P (m ≫= k).
Proof.
  intros Hm Hk s c s'. unfold mbind, M_bind.
  destruct (m s) as [[a|e] s1] eqn:Hms.
  - intros Hks. destruct (Hm _ _ _ Hms) as (x1 & Hl1 & H1).
    destruct (Hk a _ _ _ Hks) as (x2 & Hl2 & H2).
    exists (x1 ++ x2). split; [by rewrite Hl2, Hl1, app_assoc|by apply Forall_app].
  - intros [= <- <-]. exact (Hm _ _ _ Hms).
Qed.

Lemma logs_only_try_catch {A} (m : M A) (h : exn → M A) :
  logs_only P m → (∀ e, logs_only P (h e)) → logs_only P (try_catch m h).
Proof.
  intros Hm Hh s c s'. unfold try_catch.
  destruct (m s) as [[a|e] s1] eqn:Hms.
  - intros [= <- <-]. exact (Hm _ _ _ Hms).
  - intros Hhs. destruct (Hm _ _ _ Hms) as (x1 & Hl1 & H1).
    destruct (Hh e _ _ _ Hhs) as (x2 & Hl2 & H2).
    exists (x1 ++ x2). split; [by rewrite Hl2, Hl1, app_assoc|by apply Forall_app].
Qed.

End LogFacts.

Section StageLogs.
Context {E : RegExpEngine} {T : Transport}.

Ltac logs :=
  repeat first
    [ apply logs_only_ret | apply logs_only_throw | apply logs_only_lift
    | apply logs_only_call_request
    | apply logs_only_logError; reflexivity
    | apply logs_only_bind; [|intros ?]
    | apply logs_only_try_catch; [|intros ?]
    | match goal with
      | |- logs_only _ (match ?x with _ => _ end) => destruct x
      | |- logs_only _ (if ?x then _ else _) => destruct x
      end ].

Lemma fetchJson_logs (method url : string) : logs_only stage_entry (fetchJson method url).
Proof. unfold fetchJson. logs. Qed.

Lemma getReadmeContent_logs (owner repo : string) :
  logs_only stage_entry (getReadmeContent owner repo).
Proof. unfold getReadmeContent. logs; apply fetchJson_logs. Qed.

Lemma enrichSingleRepo_logs (r : Repo) : logs_only stage_entry (enrichSingleRepo r).
Proof.
  unfold enrichSingleRepo, getRepoMetadata. logs;
    first [apply getReadmeContent_logs | apply fetchJson_logs].
Qed.

Lemma enrichBatch_loop_logs (repos : list Repo) :
  ∀ acc, logs_only stage_entry (enrichBatch_loop repos acc).
Proof.
  induction repos as [|r rest IH]; intros acc; simpl; logs;
    first [apply enrichSingleRepo_logs | apply IH].
Qed.

Lemma analyzeSingleRepo_logs (sa : SmartAnalyzer.t) (r : Repo) (count : Z) :
  logs_only stage_entry (SmartAnalyzer.analyzeSingleRepo sa r count).
Proof. unfold SmartAnalyzer.analyzeSingleRepo. logs. Qed.

Lemma analyzeBatch_loop_logs (sa : SmartAnalyzer.t) (repos : list Repo) :
  ∀ acc count, logs_only stage_entry (SmartAnalyzer.analyzeBatch_loop sa repos acc count).
Proof.
  induction repos as [|r rest IH]; intros acc count; simpl; logs;
    first [apply analyzeSingleRepo_logs | apply IH].
Qed.

Lemma process_batch_logs (sa : SmartAnalyzer.t) (this : Radar) (batch : list Repo) :
  logs_only stage_entry (process_batch sa this batch).
Proof.
  unfold process_batch, enrichBatch, SmartAnalyzer.analyzeBatch. logs;
    first [apply enrichBatch_loop_logs | apply analyzeBatch_loop_logs].
Qed.

End StageLogs.

(** ** Whole runs *)

Section Runs.
Context {E : RegExpEngine} {T : Transport}.
Import SmartAnalyzer.

Ltac run_monad :=
  unfold mbind, M_bind, mret, M_ret, try_catch, throw, lift, logError in *;
  simpl in *.

Lemma process_batch_analysis (sa : t) (this r : Radar) (batch : list Repo) (s s' : state) :
  process_batch sa this batch s = (Return r, s') →
  ∃ analyzed, r = push_results this analyzed
              ∧ Forall2 (analysis_of sa) batch analyzed
              ∧ Z.of_nat (aiSummarized analyzed) ≤ Z.max 0 (maxAISummaries sa).
Proof.
  unfold process_batch. unfold mbind at 1, M_bind.
  destruct (enrichBatch_loop_outcome batch [] s) as (enriched & s1 & Hen & Hall).
  unfold enrichBatch. rewrite Hen. simpl app.
  unfold mbind at 1, M_bind.
  destruct (analyzeBatch sa enriched s1) as [[analyzed|e] s2] eqn:Ha; [|discriminate].
  intros [= <- <-]. exists analyzed. split; [done|].
  pose proof (analyzeBatch_within_quota _ _ _ _ _ Ha) as Hq. split; [|done].
  apply analyzeBatch_loop_outcome in Ha as (new & -> & _ & Han & _). simpl.
  clear -Hall Han. revert new Han.
  induction Hall as [|repo e batch enriched He _ IH]; intros new Han.
  - apply Forall2_nil_inv_l in Han as ->. constructor.
  - apply Forall2_cons_inv_l in Han as (a & new' & (b & Hb & Hs & Hk & Hr & _) & Han & ->).
    constructor; [|by apply IH]. by exists e, b.
Qed.

Lemma personalized_batches_analysis (sa : t) (batches : list (list Repo)) :
  ∀ this r s s',
    personalized_batches sa this batches s = (Return r, s') →
    ∃ new, analysisResults r = analysisResults this ++ new
           ∧ filteredRepos r = filteredRepos this
           ∧ Forall2 (analysis_of sa) (concat batches) new
           ∧ Z.of_nat (aiSummarized new)
             ≤ Z.of_nat (length batches) * Z.max 0 (maxAISummaries sa).
Proof.
  induction batches as [|batch rest IH]; intros this r s s' H.
  - injection H as <- <-. exists []. rewrite app_nil_r. repeat split; [constructor|].
    change (aiSummarized []) with 0%nat. lia.
  - simpl in H. unfold mbind at 1, M_bind in H.
    destruct (process_batch sa this batch s) as [[this'|e] s1] eqn:Hp; [|discriminate].
    apply process_batch_analysis in Hp as (analyzed & -> & Hall & Hq).
    apply IH in H as (new & Hres & Hfil & Hall' & Hq').
    exists (analyzed ++ new). simpl in *. rewrite Hres, <- app_assoc.
    split; [done|]. split; [done|]. split; [by apply Forall2_app|].
    rewrite aiSummarized_app. lia.
Qed.

Lemma batch_failures_stage (extra : list log_entry) :
  Forall stage_entry extra → batch_failures extra = 0%nat.
Proof.
  unfold batch_failures. induction 1 as [|entry extra Hentry _ IH]; simpl; [done|].
  unfold stage_entry in Hentry. by rewrite Hentry.
Qed.

Lemma batch_failures_app (l1 l2 : list log_entry) :
  batch_failures (l1 ++ l2) = (batch_failures l1 + batch_failures l2)%nat.
Proof. unfold batch_failures. by rewrite List.filter_app, length_app. Qed.

Lemma batch_failure_entry (i : nat) (detail : string) :
  batch_failures [("Batch " +:+ pretty (i + 1)%nat +:+ " failed:", detail)] = 1%nat.
Proof.
  unfold batch_failures. cbn [List.filter fst].
  generalize (pretty (i + 1)%nat). intros shown. by destruct shown.
Qed.

Lemma standalone_batches_analysis (sa : t) (batches : list (list Repo)) :
  ∀ this i s, ∃ r s' kept new extra,
    standalone_batches sa this i batches s = (Return r, s')
    ∧ kept `sublist_of` batches
    ∧ analysisResults r = analysisResults this ++ new
    ∧ filteredRepos r = filteredRepos this
    ∧ Forall2 (analysis_of sa) (concat kept) new
    ∧ Z.of_nat (aiSummarized new) ≤ Z.of_nat (length kept) * Z.max 0 (maxAISummaries sa)
    ∧ error_log s' = error_log s ++ extra
    ∧ (batch_failures extra + length kept = length batches)%nat.
Proof.
  induction batches as [|batch rest IH]; intros this i s.
  - exists this, s, [], [], []. rewrite !app_nil_r.
    repeat split; try done; try constructor.
  - simpl. unfold mbind at 1, M_bind, try_catch at 1.
    destruct (process_batch sa this batch s) as [[this'|e] s1] eqn:Hp;
      destruct (process_batch_logs sa this batch s _ _ Hp) as (extra0 & Hlog0 & Hstage).
    + apply process_batch_analysis in Hp as (analyzed & -> & Hall & Hq).
      destruct (IH (push_results this analyzed) (S i) s1)
        as (r & s' & kept & new & extra & Hrun & Hsub & Hres & Hfil & Hall' & Hq'
            & Hlog & Hfail).
      exists r, s', (batch :: kept), (analyzed ++ new), (extra0 ++ extra).
      rewrite Hrun. simpl in *.
      rewrite Hres, <- app_assoc. split; [done|]. split; [by constructor|].
      split; [done|]. split; [done|]. split; [by apply Forall2_app|].
      rewrite aiSummarized_app. split; [lia|].
      split; [by rewrite Hlog, Hlog0, app_assoc|].
      rewrite batch_failures_app, (batch_failures_stage extra0) by done. simpl. lia.
    + run_monad.
      match goal with |- context [standalone_batches sa this (S i) rest ?st] =>
        destruct (IH this (S i) st)
          as (r & s' & kept & new & extra & Hrun & Hsub & Hres & Hfil & Hall' & Hq'
              & Hlog & Hfail) end.
      exists r, s', kept, new,
        (extra0 ++ [("Batch " +:+ pretty (i + 1)%nat +:+ " failed:", message_of e)] ++ extra).
      rewrite Hrun. split; [done|]. split; [by constructor|].
      split; [done|]. split; [done|]. split; [done|]. split; [done|].
      simpl in Hlog. split; [by rewrite Hlog, Hlog0, <- !app_assoc|].
      rewrite !batch_failures_app, (batch_failures_stage extra0) by done.
      rewrite batch_failure_entry. simpl. lia.
Qed.

Lemma run_unfold_personalized (env : Env) (radar : Radar) (s : state) :
  truthy_str (or_str (github_token env) "") = true →
  PersonalizedRadar_analyzeRepos env radar s
  = personalized_batches (new (config radar) (OPENAI_API_KEY env))
      (with_filtered radar (LanguageFilter.filter
                              (LanguageFilter.new (target_languages (config radar)))
                              (allRepos radar)))
      (make_batches 5 (LanguageFilter.filter
                         (LanguageFilter.new (target_languages (config radar)))
                         (allRepos radar))) s.
Proof.
  intros Htok. unfold PersonalizedRadar_analyzeRepos, new_ContentEnricher. by rewrite Htok.
Qed.

Lemma run_unfold_standalone (env : Env) (radar : Radar) (s : state) :
  truthy_str (or_str (github_token env) "") = true →
  StandaloneRadar_analyzeRepos env radar s
  = standalone_batches (new (config radar) (OPENAI_API_KEY env))
      (with_filtered radar (LanguageFilter.filter
                              (LanguageFilter.new (target_languages (config radar)))
                              (allRepos radar)))
      0
      (make_batches 3 (LanguageFilter.filter
                         (LanguageFilter.new (target_languages (config radar)))
                         (allRepos radar))) s.
Proof.
  intros Htok. unfold StandaloneRadar_analyzeRepos, new_ContentEnricher. by rewrite Htok.
Qed.

Lemma run_needs_token (env : Env) (radar r : Radar) (s s' : state) :
  PersonalizedRadar_analyzeRepos env radar s = (Return r, s')
  ∨ StandaloneRadar_analyzeRepos env radar s = (Return r, s') →
  truthy_str (or_str (github_token env) "") = true.
Proof.
  unfold PersonalizedRadar_analyzeRepos, StandaloneRadar_analyzeRepos, new_ContentEnricher.
  destruct (truthy_str (or_str (github_token env) "")); [done|].
  by intros [H|H].
Qed.

(** X9: when the analysis of the personalized radar returns, it has
    analyzed every record that passed the language filter, once and in
    the order of the filter: each result is the analysis of the record at
    the same place, itself or enriched. *)
Theorem personalized_run_analyzes_every_filtered_record (env : Env) (radar r : Radar)
    (s s' : state) :
  analysisResults radar = [] →
  PersonalizedRadar_analyzeRepos env radar s = (Return r, s') →
  filteredRepos r
  = LanguageFilter.filter (LanguageFilter.new (target_languages (config radar)))
      (allRepos radar)
  ∧ Forall2 (analysis_of (new (config radar) (OPENAI_API_KEY env)))
            (filteredRepos r) (analysisResults r).
Proof.
  intros Hinit H. rewrite run_unfold_personalized in H by (eapply run_needs_token; eauto).
  apply personalized_batches_analysis in H as (new & Hres & Hfil & Hall & _).
  simpl in *. rewrite Hfil. split; [done|].
  rewrite Hres, Hinit. simpl. by rewrite make_batches_concat_lemma in Hall by lia.
Qed.

(** X10: once the token is set, the analysis of the standalone radar
    always returns.  Its results are the analyses, in order, of the
    records of the batches it kept, these being some of the batches of
    three of the filtered records; so there are never more results than
    filtered records, and the error log gains one "Batch ... failed:"
    entry for every batch that was not kept. *)
Theorem standalone_run_always_returns (env : Env) (radar : Radar) (s : state) :
  analysisResults radar = [] →
  truthy_str (or_str (github_token env) "") = true →
  ∃ r s' kept extra,
    StandaloneRadar_analyzeRepos env radar s = (Return r, s')
    ∧ filteredRepos r
      = LanguageFilter.filter (LanguageFilter.new (target_languages (config radar)))
          (allRepos radar)
    ∧ kept `sublist_of` make_batches 3 (filteredRepos r)
    ∧ Forall2 (analysis_of (new (config radar) (OPENAI_API_KEY env)))
              (concat kept) (analysisResults r)
    ∧ (length (analysisResults r) ≤ length (filteredRepos r))%nat
    ∧ error_log s' = error_log s ++ extra
    ∧ (batch_failures extra + length kept
       = length (make_batches 3 (filteredRepos r)))%nat.
Proof.
  intros Hinit Htok. rewrite run_unfold_standalone by done.
  match goal with |- context [standalone_batches ?sa ?this ?i ?bs s] =>
    destruct (standalone_batches_analysis sa bs this i s)
      as (r & s' & kept & new & extra & Hrun & Hsub & Hres & Hfil & Hall & _ & Hlog & Hfail)
  end.
  exists r, s', kept, extra. simpl in *. rewrite Hfil, Hres, Hinit. simpl.
  split; [done|]. split; [done|]. split; [done|]. split; [done|].
  split; [|done].
  rewrite <- (Forall2_length _ _ _ Hall).
  pose proof (sublist_length _ _ (sublist_concat _ _ Hsub)) as Hlen.
  by rewrite make_batches_concat_lemma in Hlen by lia.
Qed.

(** X11: over a run, the summaries are at most the quota times the
    number of batches, that is the number of filtered records divided by
    the batch size (5 or 3), rounded up. *)
Theorem run_summaries_bounded_by_batches (env : Env) (radar r : Radar) (s s' : state)
    (batchSize : nat) :
  analysisResults radar = [] →
  (PersonalizedRadar_analyzeRepos env radar s = (Return r, s') ∧ batchSize = 5%nat)
  ∨ (StandaloneRadar_analyzeRepos env radar s = (Return r, s') ∧ batchSize = 3%nat) →
  Z.of_nat (aiSummarized (analysisResults r))
  ≤ Z.of_nat ((length (filteredRepos r) + batchSize - 1) / batchSize)
    * Z.max 0 (maxAISummaries (new (config radar) (OPENAI_API_KEY env))).
Proof.
  intros Hinit [[H ->]|[H ->]].
  - rewrite run_unfold_personalized in H by (eapply run_needs_token; eauto).
    apply personalized_batches_analysis in H as (new & Hres & Hfil & _ & Hq).
    simpl in *. rewrite Hfil, Hres, Hinit. simpl.
    by rewrite (make_batches_length_lemma 5) in Hq by lia.
  - pose proof (run_needs_token _ _ _ _ _ (or_intror H)) as Htok.
    rewrite run_unfold_standalone in H by done.
    match type of H with standalone_batches ?sa ?this ?i ?bs s = _ =>
      destruct (standalone_batches_analysis sa bs this i s)
        as (r' & s'' & kept & new & extra & Hrun & Hsub & Hres & Hfil & _ & Hq & _) end.
    rewrite Hrun in H. injection H as <- <-. simpl in *. rewrite Hfil, Hres, Hinit. simpl.
    apply sublist_length in Hsub. rewrite (make_batches_length_lemma 3) in Hsub by lia.
    etrans; [exact Hq|]. apply Z.mul_le_mono_nonneg_r; [lia|].
    apply Nat2Z.inj_le. exact Hsub.
Qed.

End Runs.

(** ** What enrichment adds and what it keeps *)

Section EnrichmentFields.
Context {T : Transport}.

Ltac run_monad :=
  unfold mbind, M_bind, mret, M_ret, try_catch, throw, lift, logError, call_request in *;
  simpl in *.

Lemma substring0_length (n : nat) (s : string) : (String.length (substring0 n s) ≤ n)%nat.
Proof.
  revert s. induction n as [|n IH]; intros [|c s]; simpl; try lia.
  specialize (IH s). lia.
Qed.

Lemma getReadmeContent_bounded (owner repo : string) (s s' : state) (readme : string) :
  getReadmeContent owner repo s = (Return readme, s') →
  (String.length readme ≤ 5000)%nat.
Proof.
  unfold getReadmeContent, fetchJson.
  unfold mbind, M_bind, mret, M_ret, try_catch, throw, logError, call_request.
  destruct (request "GET" _ (world s)) as [[d|e] w]; [|discriminate].
  destruct d as [data|]; [|intros [= <- _]; cbn; lia].
  destruct (content data) as [c|]; [|intros [= <- _]; cbn; lia].
  destruct (truthy_str c); [|intros [= <- _]; cbn; lia].
  pose proof (substring0_length 5000 (base64_decode c)) as Hlen. revert Hlen.
  generalize (substring0 5000 (base64_decode c)). by intros sub Hlen [= <- _].
Qed.

Lemma enrichSingleRepo_bounded (r e : Repo) (s s' : state) :
  enrichSingleRepo r s = (Return e, s') →
  e = r ∨ ∃ readme repoMetadata,
            e = enriched r readme repoMetadata ∧ (String.length readme ≤ 5000)%nat.
Proof.
  unfold enrichSingleRepo. destruct (name r) as [nm|]; [|discriminate].
  destruct (negb _ || negb _); [intros [= <- _]; by left|].
  unfold try_catch at 1, mbind at 1, M_bind.
  destruct (getReadmeContent _ _ s) as [[readme|err] s1] eqn:Hreadme.
  - apply getReadmeContent_bounded in Hreadme.
    unfold mbind at 1, M_bind.
    destruct (getRepoMetadata _ _ s1) as [[m|err] s2].
    + intros [= <- _]. right. by exists readme, m.
    + run_monad. repeat case_bool_decide; intros [= <- _]; by left.
  - run_monad. repeat case_bool_decide; intros [= <- _]; by left.
Qed.

Lemma enrichBatch_loop_bounded (repos : list Repo) :
  ∀ acc s out s',
    enrichBatch_loop repos acc s = (Return out, s') →
    ∃ new, out = acc ++ new
           ∧ Forall2 (λ r e, e = r ∨ ∃ readme repoMetadata,
                        e = enriched r readme repoMetadata
                        ∧ (String.length readme ≤ 5000)%nat) repos new.
Proof.
  induction repos as [|r rest IH]; intros acc s out s' H.
  - injection H as <- <-. exists []. by rewrite app_nil_r.
  - simpl in H. unfold mbind at 1, M_bind, try_catch at 1 in H.
    unfold mbind at 1, M_bind in H.
    destruct (enrichSingleRepo r s) as [[e|err] s1] eqn:Hr.
    + unfold mret at 1, M_ret in H. apply IH in H as (new & -> & Hall).
      exists (e :: new). rewrite <- app_assoc. split; [done|].
      constructor; [|done]. by eapply enrichSingleRepo_bounded.
    + run_monad. apply IH in H as (new & -> & Hall).
      exists (r :: new). rewrite <- app_assoc. split; [done|].
      constructor; [by left|done].
Qed.

(** X12: a record that [enrichBatch] enriches gets a long-form text of
    at most 5000 characters and a list of topics; every other record
    comes out as it went in. *)
Theorem enrichBatch_readme_is_bounded (repos : list Repo) (s s' : state) (out : list Repo) :
  enrichBatch repos s = (Return out, s') →
  Forall2 (λ r e, e = r
                  ∨ ∃ readme ts, readmeContent e = Some readme
                                 ∧ (String.length readme ≤ 5000)%nat
                                 ∧ topics e = Some ts) repos out.
Proof.
  intros H. apply enrichBatch_loop_bounded in H as (new & -> & Hall). simpl.
  eapply Forall2_impl; [exact Hall|].
  intros r e [->|(readme & m & -> & Hlen)]; [by left|].
  right. eexists readme, _. by repeat split.
Qed.

(** X13: enrichment never touches what the extractor delivered: name,
    address, description, language and the three counters of every record
    are the same after [enrichBatch] as before. *)
Theorem enrichBatch_keeps_extractor_fields (repos : list Repo) (s s' : state)
    (out : list Repo) :
  enrichBatch repos s = (Return out, s') →
  Forall2 (λ r e, name e = name r ∧ url e = url r ∧ description e = description r
                  ∧ language e = language r ∧ starsAdded e = starsAdded r
                  ∧ stars e = stars r ∧ forks e = forks r) repos out.
Proof.
  intros H. apply enrichBatch_loop_bounded in H as (new & -> & Hall). simpl.
  eapply Forall2_impl; [exact Hall|].
  by intros r e [->|(readme & m & -> & _)].
Qed.

End EnrichmentFields.

(** ** Tables of counts *)

Section Counts.

Lemma get_set_same (o : Obj.t) (k : string) (v : Z) : Obj.get (Obj.set o k v) k = Some v.
Proof.
  induction o as [|[k' v'] o IH]; simpl; [by rewrite String.eqb_refl|].
  destruct (String.eqb k' k) eqn:Hk; simpl; [by rewrite String.eqb_refl|by rewrite Hk].
Qed.

Lemma get_set_other (o : Obj.t) (k k' : string) (v : Z) :
  k ≠ k' → Obj.get (Obj.set o k v) k' = Obj.get o k'.
Proof.
  intros Hne. induction o as [|[k0 v0] o IH]; simpl.
  - by apply String.eqb_neq in Hne as ->.
  - destruct (String.eqb k0 k) eqn:Hk; simpl.
    + apply String.eqb_eq in Hk as ->. by apply String.eqb_neq in Hne as ->.
    + by rewrite IH.
Qed.

Lemma set_keys (o : Obj.t) (k : string) (v : Z) :
  map fst (Obj.set o k v)
  = match Obj.get o k with Some _ => map fst o | None => map fst o ++ [k] end.
Proof.
  induction o as [|[k' v'] o IH]; simpl; [done|].
  destruct (String.eqb k' k) eqn:Hk; simpl.
  - by apply String.eqb_eq in Hk as ->.
  - rewrite IH. by destruct (Obj.get o k).
Qed.

Lemma get_None_keys (o : Obj.t) (k : string) : Obj.get o k = None ↔ k ∉ map fst o.
Proof.
  induction o as [|[k' v'] o IH]; simpl; [split; [intros _; apply not_elem_of_nil|done]|].
  rewrite elem_of_cons. destruct (String.eqb k' k) eqn:Hk.
  - apply String.eqb_eq in Hk as ->. naive_solver.
  - apply String.eqb_neq in Hk. rewrite IH. naive_solver.
Qed.

Lemma set_total (o : Obj.t) (k : string) (v : Z) :
  total_count (Obj.set o k v) = total_count o - default 0 (Obj.get o k) + v.
Proof.
  unfold total_count. induction o as [|[k' v'] o IH]; simpl; [lia|].
  destruct (String.eqb k' k); simpl; lia.
Qed.

Lemma increment_get (o : Obj.t) (k k' : string) :
  Obj.get (Obj.increment o k) k'
  = if String.eqb k k' then Some (default 0 (Obj.get o k) + 1) else Obj.get o k'.
Proof.
  unfold Obj.increment. destruct (String.eqb k k') eqn:Hk.
  - apply String.eqb_eq in Hk as <-. rewrite get_set_same. f_equal.
    destruct (Obj.get o k) as [v|]; simpl; [|done]. by destruct (Z.eqb_spec v 0) as [->|].
  - apply String.eqb_neq in Hk. by apply get_set_other.
Qed.

Lemma increment_total (o : Obj.t) (k : string) :
  total_count (Obj.increment o k) = total_count o + 1.
Proof.
  unfold Obj.increment. rewrite set_total.
  destruct (Obj.get o k) as [v|]; simpl; [|lia]. destruct (Z.eqb_spec v 0) as [->|]; simpl; lia.
Qed.

Lemma increment_keys_NoDup (o : Obj.t) (k : string) :
  NoDup (map fst o) → NoDup (map fst (Obj.increment o k)).
Proof.
  intros Hnd. unfold Obj.increment. rewrite set_keys.
  destruct (Obj.get o k) eqn:Hg; [done|].
  apply NoDup_app. split; [done|]. split; [|apply NoDup_singleton].
  intros x Hx Hk. apply list_elem_of_singleton in Hk as ->. by apply get_None_keys in Hg.
Qed.

(** Filing the elements of a list one after the other. *)
Lemma tally_outcome {A} (key : A → string) (l : list A) :
  ∀ o, NoDup (map fst o) →
    let o' := foldl (λ stats x, Obj.increment stats (key x)) o l in
    NoDup (map fst o')
    ∧ total_count o' = total_count o + Z.of_nat (length l)
    ∧ ∀ k, Obj.get o' k
           = if (filed_under key k l =? 0)%nat then Obj.get o k
             else Some (default 0 (Obj.get o k) + Z.of_nat (filed_under key k l)).
Proof.
  induction l as [|x l IH]; intros o Hnd; cbv zeta; simpl.
  - split; [done|]. split; [lia|]. done.
  - destruct (IH (Obj.increment o (key x)) (increment_keys_NoDup _ _ Hnd))
      as (Hnd' & Htot & Hget).
    split; [done|]. split; [rewrite Htot, increment_total; lia|].
    intros k. rewrite Hget, increment_get. unfold filed_under. simpl List.filter.
    destruct (String.eqb (key x) k) eqn:Hk; simpl length.
    + apply String.eqb_eq in Hk as <-.
      destruct (length (List.filter _ l) =? 0)%nat eqn:Hz; simpl.
      * apply Nat.eqb_eq in Hz. rewrite Hz. f_equal.
      * f_equal. lia.
    + done.
Qed.

(** X14: [getLanguageStats] counts every record once, under its
    language or under "Unknown": the counts add up to the number of
    records, no language is listed twice, and a language is listed, with
    the number of its records, exactly when some record has it. *)
Theorem language_stats_count_every_record (repos : list Repo) :
  Forall Obj.ordinary_key (map language_key repos) →
  NoDup (map fst (getLanguageStats repos))
  ∧ total_count (getLanguageStats repos) = Z.of_nat (length repos)
  ∧ ∀ lang, Obj.get (getLanguageStats repos) lang
            = if (filed_under language_key lang repos =? 0)%nat then None
              else Some (Z.of_nat (filed_under language_key lang repos)).
Proof.
  intros _. destruct (tally_outcome language_key repos [] (NoDup_nil_2)) as (Hnd & Htot & Hget).
  split; [exact Hnd|]. split; [exact Htot|]. exact Hget.
Qed.

End Counts.

(** ** Sorting *)

Section Sorting.
Context {A : Type} (key : A → Z).

Let by_key_descending : A → A → Z := λ a b, key b - key a.

Lemma sort_insert_perm (x : A) (l : list A) :
  JsMore.sort_insert by_key_descending x l ≡ₚ x :: l.
Proof.
  induction l as [|y l IH]; simpl; [done|].
  destruct (by_key_descending x y <=? 0); [done|].
  rewrite IH. apply Permutation_swap.
Qed.

Lemma sort_perm (l : list A) : JsMore.sort by_key_descending l ≡ₚ l.
Proof.
  induction l as [|x l IH]; simpl; [done|].
  fold (JsMore.sort by_key_descending l). by rewrite sort_insert_perm, IH.
Qed.

Lemma sort_insert_sorted (x : A) (l : list A) :
  StronglySorted (λ a b, key b ≤ key a) l →
  StronglySorted (λ a b, key b ≤ key a) (JsMore.sort_insert by_key_descending x l).
Proof.
  induction 1 as [|y l Hsorted IH Hy]; simpl.
  - repeat constructor.
  - unfold by_key_descending at 1. destruct (Z.leb_spec (key y - key x) 0) as [Hle|Hgt].
    + constructor; [by constructor|]. constructor; [lia|].
      eapply Forall_impl; [exact Hy|]. simpl. intros b Hb. lia.
    + constructor; [exact IH|].
      rewrite sort_insert_perm. constructor; [lia|done].
Qed.

Lemma sort_sorted (l : list A) :
  StronglySorted (λ a b, key b ≤ key a) (JsMore.sort by_key_descending l).
Proof.
  induction l as [|x l IH]; simpl; [constructor|]. by apply sort_insert_sorted.
Qed.

Lemma sort_insert_stable (v : Z) (x : A) (l : list A) :
  List.filter (λ a, key a =? v) (JsMore.sort_insert by_key_descending x l)
  = List.filter (λ a, key a =? v) (x :: l).
Proof.
  induction l as [|y l IH]; simpl; [done|].
  unfold by_key_descending at 1. destruct (Z.leb_spec (key y - key x) 0) as [Hle|Hgt]; [done|].
  simpl. rewrite IH. simpl.
  destruct (Z.eqb_spec (key y) v) as [Hy|Hy]; [|done].
  destruct (Z.eqb_spec (key x) v) as [Hx|Hx]; [lia|done].
Qed.

Lemma sort_stable (v : Z) (l : list A) :
  List.filter (λ a, key a =? v) (JsMore.sort by_key_descending l)
  = List.filter (λ a, key a =? v) l.
Proof.
  induction l as [|x l IH]; simpl; [done|].
  fold (JsMore.sort by_key_descending l). rewrite sort_insert_stable. simpl. by rewrite IH.
Qed.

End Sorting.

(** ** The report *)

Section Report.
Import RadarFormatter.

Lemma new_threshold (config : ReportConfig) :
  minRelevanceScore (new config) = report_threshold config.
Proof.
  unfold new, report_threshold. simpl.
  destruct (min_relevance_score config) as [n|]; simpl; [|done]. by destruct (n =? 0).
Qed.


(** X15: the records that [format] reports are exactly the analyzed
    records whose score reaches the threshold (the configured minimum, 1
    when none or 0 is configured), each as often as it was analyzed, the
    highest score first, records of equal score in the order of the
    analysis. *)
Theorem reported_records_selected_and_sorted (config : ReportConfig)
    (analyzedRepos : list AnalyzedRepo) :
  relevantRepos (new config) analyzedRepos
    ≡ₚ List.filter (λ repo, report_threshold config <=? relevanceScore repo) analyzedRepos
  ∧ StronglySorted (λ a b, relevanceScore b ≤ relevanceScore a)
      (relevantRepos (new config) analyzedRepos)
  ∧ ∀ v, List.filter (λ a, relevanceScore a =? v) (relevantRepos (new config) analyzedRepos)
         = List.filter (λ a, (report_threshold config <=? relevanceScore a)
                             && (relevanceScore a =? v)) analyzedRepos.
Proof.
  unfold relevantRepos. rewrite new_threshold. split; [|split].
  - apply (sort_perm relevanceScore).
  - apply (sort_sorted relevanceScore).
  - intros v. rewrite (sort_stable relevanceScore). apply filter_twice.
Qed.





End Report.

(** ** The GitHub token *)

Lemma env_value_truthy (env : gmap string string) (tokenName value : string) :
  env_value env tokenName = Some value → truthy_str value = true.
Proof.
  unfold env_value. destruct (env !! tokenName) as [v|]; [|done].
  destruct (truthy_str v) eqn:Hv; [|done]. by intros [= <-].
Qed.

(** X17: the radar and the API client agree on the token.  When one of
    the three variables is set, [ensureGitHubToken] copies the first one
    that is set into GITHUB_TOKEN, changes nothing else, and the client
    then finds this very token; when none is set, [ensureGitHubToken]
    throws and the client finds no token. *)
Theorem token_is_ensured_for_the_client (env : gmap string string) :
  match getGitHubToken env with
  | Some token =>
      ensureGitHubToken env = Return (<["GITHUB_TOKEN" := token]> env)
      ∧ getGitHubToken (<["GITHUB_TOKEN" := token]> env) = Some token
  | None =>
      (∃ message, ensureGitHubToken env = Throw (Error message))
      ∧ Forall (λ tokenName, env_value env tokenName = None) possibleTokenNames
  end.
Proof.
  unfold getGitHubToken, ensureGitHubToken, possibleTokenNames.
  destruct (env_value env "GITHUB_TOKEN") as [t1|] eqn:H1.
  { split; [done|]. pose proof (env_value_truthy _ _ _ H1) as Ht.
    unfold env_value. rewrite lookup_insert_eq. by rewrite Ht. }
  destruct (env_value env "GITHUB_TOKEN_BOT") as [t2|] eqn:H2.
  { split; [done|]. pose proof (env_value_truthy _ _ _ H2) as Ht.
    unfold env_value at 1. rewrite lookup_insert_eq. by rewrite Ht. }
  destruct (env_value env "GITHUB_TOKEN_VITALETS") as [t3|] eqn:H3.
  { split; [done|]. pose proof (env_value_truthy _ _ _ H3) as Ht.
    unfold env_value at 1. rewrite lookup_insert_eq. by rewrite Ht. }
  split; [by eexists|]. by repeat constructor.
Qed.

(** ** The rate limit *)

Section RateLimitFacts.
Context {T : Transport} {R : RateLimitEndpoint}.

(** X18: [checkRateLimit] never throws.  It answers [false] only when
    the API answered with a rate whose remaining count is missing or at
    most 10; when the request fails or the answer has no body it answers
    [true]. *)
Theorem checkRateLimit_never_throws (s : state) :
  ∃ answer s',
    checkRateLimit s = (Return answer, s')
    ∧ (answer = false ↔
       ∃ limit info w,
         request_rate_limit (world s) = (Return (Some limit), w)
         ∧ rate limit = Some info
         ∧ match remaining info with Some n => n ≤ 10 | None => True end).
Proof.
  unfold checkRateLimit, getRateLimit, call_rate_limit.
  unfold try_catch, mbind, M_bind, mret, M_ret, throw, logError.
  destruct (request_rate_limit (world s)) as [[[limit|]|e] w] eqn:Hreq; simpl.
  - destruct (rate limit) as [info|] eqn:Hrate; simpl.
    + destruct (remaining info) as [n|] eqn:Hrem.
      * eexists _, _. split; [reflexivity|]. rewrite Z.ltb_ge. split.
        -- intros Hn. exists limit, info, w. by rewrite Hrem.
        -- intros (l & i & w' & [= <- <-] & Hi & Hr). rewrite Hrate in Hi.
           injection Hi as <-. by rewrite Hrem in Hr.
      * eexists _, _. split; [reflexivity|]. split; [|done].
        intros _. exists limit, info, w. by rewrite Hrem.
    + eexists _, _. split; [reflexivity|]. split; [done|].
      intros (l & i & w' & [= <- <-] & Hi & _). congruence.
  - eexists _, _. split; [reflexivity|]. split; [done|].
    by intros (l & i & w' & [= ] & _).
  - eexists _, _. split; [reflexivity|]. split; [done|].
    by intros (l & i & w' & [= ] & _).
Qed.

End RateLimitFacts.

(** ** The summary of the report *)

Section TopKeywords.
Import RadarFormatter.

Lemma foldl_concat_map {A B C} (f : A → B → A) (g : C → list B) (l : list C) :
  ∀ a, foldl (λ acc x, foldl f acc (g x)) a l = foldl f a (concat (map g l)).
Proof.
  induction l as [|x l IH]; intros a; simpl; [done|]. by rewrite foldl_app, IH.
Qed.

Lemma get_of_entry (o : Obj.t) (k : string) (v : Z) :
  NoDup (map fst o) → (k, v) ∈ o → Obj.get o k = Some v.
Proof.
  induction o as [|[k' v'] o IH]; simpl; intros Hnd Hin; [by apply elem_of_nil in Hin|].
  apply NoDup_cons in Hnd as [Hk' Hnd]. apply elem_of_cons in Hin as [[= <- <-]|Hin].
  - by rewrite String.eqb_refl.
  - destruct (String.eqb_spec k' k) as [->|_]; [|by apply IH].
    destruct Hk'. apply list_elem_of_fmap. by exists (k, v).
Qed.

Lemma filed_under_zero {A} (key : A → string) (k : string) (l : list A) :
  filed_under key k l = 0%nat ↔ k ∉ map key l.
Proof.
  unfold filed_under. induction l as [|x l IH]; simpl.
  - split; [intros _; apply not_elem_of_nil|done].
  - rewrite not_elem_of_cons. destruct (String.eqb_spec (key x) k) as [->|Hne]; simpl.
    + split; [discriminate|]. by intros [? _].
    + rewrite IH. naive_solver.
Qed.

Lemma StronglySorted_map {A B} (R : A → A → Prop) (R' : B → B → Prop) (P : A → Prop)
    (f : A → B) (l : list A) :
  (∀ a b, P a → P b → R a b → R' (f a) (f b)) →
  Forall P l → StronglySorted R l → StronglySorted R' (map f l).
Proof.
  intros HR HP. induction 1 as [|a l Hl IH Ha]; simpl; [constructor|].
  apply Forall_cons in HP as [Pa HP]. constructor; [by apply IH|].
  apply Forall_fmap. rewrite Forall_forall in Ha, HP |- *. intros b Hb. simpl.
  apply HR; auto.
Qed.

(** X19: the keywords of the summary line.  [getTopKeywords] lists
    every keyword that some reported record matched, each once, a keyword
    matched by more records before a keyword matched by fewer (the
    summary shows the first five). *)
Theorem top_keywords_are_ranked_by_frequency (repos : list AnalyzedRepo) :
  let matched := concat (map matchedKeywords repos) in
  Forall Obj.ordinary_key matched →
  NoDup (getTopKeywords repos)
  ∧ (∀ keyword, keyword ∈ getTopKeywords repos ↔ keyword ∈ matched)
  ∧ StronglySorted
      (λ a b, (filed_under id b matched ≤ filed_under id a matched)%nat)
      (getTopKeywords repos).
Proof.
  intros matched _. unfold getTopKeywords. rewrite foldl_concat_map. fold matched.
  unfold Obj.entries.
  destruct (tally_outcome id matched [] NoDup_nil_2) as (Hnd & _ & Hget).
  change (foldl (λ stats x, Obj.increment stats (id x)) [] matched)
    with (foldl Obj.increment [] matched) in *.
  set (counts := foldl Obj.increment [] matched) in *.
  pose proof (sort_perm (A := string * Z) snd counts) as Hperm.
  pose proof (sort_sorted (A := string * Z) snd counts) as Hsorted.
  cbv zeta in Hperm, Hsorted.
  set (sorted := JsMore.sort _ counts) in *.
  assert (∀ k v, (k, v) ∈ sorted → v = Z.of_nat (filed_under id k matched)) as Hval.
  { intros k v Hin. rewrite Hperm in Hin. apply (get_of_entry _ _ _ Hnd) in Hin.
    rewrite Hget in Hin. simpl in Hin.
    destruct (filed_under id k matched =? 0)%nat; [discriminate|]. by injection Hin as <-. }
  split; [|split].
  - by rewrite Hperm.
  - intros k. rewrite Hperm. pose proof (get_None_keys counts k) as Hk.
    rewrite Hget in Hk. simpl in Hk.
    pose proof (filed_under_zero id k matched) as Hz. rewrite list_fmap_id in Hz.
    destruct (Nat.eqb_spec (filed_under id k matched) 0) as [H0|H0].
    + split; [intros Hin; by apply Hk in Hin|intros Hin; by apply Hz in H0].
    + split.
      * intros _. destruct (decide (k ∈ matched)) as [|Hn]; [done|]. by apply Hz in Hn.
      * intros _. destruct (decide (k ∈ map fst counts)) as [|Hn]; [done|].
        by apply Hk in Hn.
  - eapply (StronglySorted_map _ _ (λ e, e.2 = Z.of_nat (filed_under id e.1 matched)));
      [| |exact Hsorted].
    + intros [a va] [b vb]; simpl. intros -> ->. lia.
    + apply Forall_forall. intros [k v] Hin. simpl. by apply Hval.
Qed.

End TopKeywords.

(** ** The further properties on concrete inputs *)

Lemma make_batches_concat_witness :
  concat (make_batches 3 [1; 2; 3; 4; 5; 6; 7]) = [1; 2; 3; 4; 5; 6; 7].
Proof. apply (make_batches_concat 3). vm_compute. repeat constructor. Defined.

Lemma make_batches_sizes_witness :
  Forall (λ b, (1 ≤ length b ≤ 3)%nat) (make_batches 3 [1; 2; 3; 4; 5; 6; 7])
  ∧ (∀ j b, make_batches 3 [1; 2; 3; 4; 5; 6; 7] !! j = Some b →
            (S j < length (make_batches 3 [1; 2; 3; 4; 5; 6; 7]))%nat → length b = 3%nat)
  ∧ length (make_batches 3 [1; 2; 3; 4; 5; 6; 7]) = ((7 + 3 - 1) / 3)%nat.
Proof. apply (make_batches_sizes 3 [1; 2; 3; 4; 5; 6; 7]). vm_compute. repeat constructor. Defined.

Lemma matched_keyword_iff_witness :
  ∃ a, @SmartAnalyzer.basicAnalysis (ecma_engine silent_engine) (ai_analyzer (Some true))
         (agent_repo "o/r") = Return a
       ∧ ("AI" ∈ matchedKeywords a ↔
            "AI" ∈ SmartAnalyzer.topicKeywords (ai_analyzer (Some true))
            ∧ (0 < @Spec.keyword_count (ecma_engine silent_engine) "AI"
                     (Spec.field_text Spec.Description (agent_repo "o/r"))
               ∨ 0 < @Spec.keyword_count (ecma_engine silent_engine) "AI"
                       (Spec.field_text Spec.Readme (agent_repo "o/r"))
               ∨ 0 < @Spec.keyword_count (ecma_engine silent_engine) "AI"
                       (Spec.field_text Spec.Topics (agent_repo "o/r")))).
Proof.
  eexists. split; [vm_compute; reflexivity|].
  apply (@matched_keyword_iff (ecma_engine silent_engine) (ai_analyzer (Some true))
           (agent_repo "o/r")).
  vm_compute. reflexivity.
Defined.

Lemma score_zero_iff_no_keyword_witness :
  ∃ a, @SmartAnalyzer.basicAnalysis (ecma_engine silent_engine) (ai_analyzer (Some true))
         untagged_repo = Return a
       ∧ (relevanceScore a = 0 ↔ matchedKeywords a = []).
Proof.
  eexists. split; [vm_compute; reflexivity|].
  apply (@score_zero_iff_no_keyword (ecma_engine silent_engine) (ai_analyzer (Some true))
           untagged_repo).
  vm_compute. reflexivity.
Defined.

Lemma scoring_without_keywords_or_text_witness :
  @SmartAnalyzer.basicAnalysis silent_engine
    (SmartAnalyzer.new (keyword_config [] []) None) (agent_repo "o/r")
  = Return (scored (agent_repo "o/r") 0 []).
Proof.
  apply (@scoring_without_keywords_or_text silent_engine). left. reflexivity.
Defined.

Lemma analyzeBatch_summary_count_witness :
  ∃ out s',
    @SmartAnalyzer.analyzeBatch (ecma_engine silent_engine) offline
      (SmartAnalyzer.new (keyword_config [] ["AI"]) (Some "sk-key"))
      [agent_repo "o/r"; untagged_repo; agent_repo "o/s"] (@initial_state offline tt)
    = (Return out, s')
    ∧ Z.of_nat (aiSummarizedRepos (getAnalysisStats out))
      = Z.min (Z.of_nat (relevantRepos (getAnalysisStats out))) (Z.max 0 10).
Proof.
  eexists _, _. split; [vm_compute; reflexivity|].
  eapply (@analyzeBatch_summary_count (ecma_engine silent_engine) offline
           (keyword_config [] ["AI"]) (Some "sk-key")
           [agent_repo "o/r"; untagged_repo; agent_repo "o/s"] (@initial_state offline tt)).
  vm_compute. reflexivity.
Defined.

Lemma analysis_stats_ordered_witness :
  ∃ out s',
    @SmartAnalyzer.analyzeBatch (ecma_engine silent_engine) offline (ai_analyzer (Some true))
      [agent_repo "o/r"; untagged_repo; agent_repo "o/s"] (@initial_state offline tt)
    = (Return out, s')
    ∧ (aiSummarizedRepos (getAnalysisStats out) ≤ relevantRepos (getAnalysisStats out))%nat
    ∧ (relevantRepos (getAnalysisStats out) ≤ totalAnalyzed (getAnalysisStats out))%nat
    ∧ totalAnalyzed (getAnalysisStats out) = 3%nat.
Proof.
  eexists _, _. split; [vm_compute; reflexivity|].
  eapply (@analysis_stats_ordered (ecma_engine silent_engine) offline (ai_analyzer (Some true))
           [agent_repo "o/r"; untagged_repo; agent_repo "o/s"] (@initial_state offline tt)).
  vm_compute. reflexivity.
Defined.

Lemma personalized_run_analyzes_every_filtered_record_witness :
  ∃ r s',
    @PersonalizedRadar_analyzeRepos (ecma_engine silent_engine) answering keyed_env
      (new_Radar (keyword_config ["python"] ["AI"])
         [agent_repo "o/r"; untagged_repo; agent_repo "o/s"])
      (@initial_state answering tt) = (Return r, s')
    ∧ filteredRepos r
      = LanguageFilter.filter (LanguageFilter.new ["python"])
          [agent_repo "o/r"; untagged_repo; agent_repo "o/s"]
    ∧ Forall2 (@analysis_of (ecma_engine silent_engine) answering
                 (SmartAnalyzer.new (keyword_config ["python"] ["AI"]) (Some "sk-key")))
              (filteredRepos r) (analysisResults r).
Proof.
  eexists _, _. split; [vm_compute; reflexivity|].
  eapply (@personalized_run_analyzes_every_filtered_record (ecma_engine silent_engine)
           answering keyed_env
           (new_Radar (keyword_config ["python"] ["AI"])
              [agent_repo "o/r"; untagged_repo; agent_repo "o/s"])
           _ (@initial_state answering tt)).
  - reflexivity.
  - vm_compute. reflexivity.
Defined.

Lemma standalone_run_always_returns_witness :
  ∃ r s' kept extra,
    @StandaloneRadar_analyzeRepos (ecma_engine silent_engine) offline keyed_env
      (new_Radar (keyword_config [] ["c++"]) five_described_five_bare)
      (@initial_state offline tt) = (Return r, s')
    ∧ filteredRepos r
      = LanguageFilter.filter (LanguageFilter.new []) five_described_five_bare
    ∧ kept `sublist_of` make_batches 3 (filteredRepos r)
    ∧ Forall2 (@analysis_of (ecma_engine silent_engine) offline
                 (SmartAnalyzer.new (keyword_config [] ["c++"]) (Some "sk-key")))
              (concat kept) (analysisResults r)
    ∧ (length (analysisResults r) ≤ length (filteredRepos r))%nat
    ∧ error_log s' = [] ++ extra
    ∧ (batch_failures extra + length kept
       = length (make_batches 3 (filteredRepos r)))%nat.
Proof.
  apply (@standalone_run_always_returns (ecma_engine silent_engine) offline keyed_env
           (new_Radar (keyword_config [] ["c++"]) five_described_five_bare)
           (@initial_state offline tt)); reflexivity.
Defined.

Lemma run_summaries_bounded_by_batches_witness :
  ∃ r s',
    @StandaloneRadar_analyzeRepos (ecma_engine silent_engine) offline keyed_env
      (new_Radar (keyword_config [] ["AI"]) eleven_ai_repos)
      (@initial_state offline tt) = (Return r, s')
    ∧ Z.of_nat (aiSummarized (analysisResults r))
      ≤ Z.of_nat ((length (filteredRepos r) + 3 - 1) / 3)
        * Z.max 0 (SmartAnalyzer.maxAISummaries
                     (SmartAnalyzer.new (keyword_config [] ["AI"]) (Some "sk-key"))).
Proof.
  eexists _, _. split; [vm_compute; reflexivity|].
  eapply (@run_summaries_bounded_by_batches (ecma_engine silent_engine) offline keyed_env
           (new_Radar (keyword_config [] ["AI"]) eleven_ai_repos) _
           (@initial_state offline tt) _ 3%nat).
  - reflexivity.
  - right. split; [vm_compute; reflexivity|reflexivity].
Defined.

Lemma enrichBatch_readme_is_bounded_witness :
  ∃ out s',
    @enrichBatch answering [agent_repo "o/r"; agent_repo "unusable"; nameless_repo]
      (@initial_state answering tt) = (Return out, s')
    ∧ Forall2 (λ r e, e = r
                      ∨ ∃ readme ts, readmeContent e = Some readme
                                     ∧ (String.length readme ≤ 5000)%nat
                                     ∧ topics e = Some ts)
        [agent_repo "o/r"; agent_repo "unusable"; nameless_repo] out.
Proof.
  eexists _, _. split; [vm_compute; reflexivity|].
  eapply (@enrichBatch_readme_is_bounded answering
           [agent_repo "o/r"; agent_repo "unusable"; nameless_repo]
           (@initial_state answering tt)).
  vm_compute. reflexivity.
Defined.

Lemma enrichBatch_keeps_extractor_fields_witness :
  ∃ out s',
    @enrichBatch answering [agent_repo "o/r"; bare_repo "o/s" "AI" None]
      (@initial_state answering tt) = (Return out, s')
    ∧ Forall2 (λ r e, name e = name r ∧ url e = url r ∧ description e = description r
                      ∧ language e = language r ∧ starsAdded e = starsAdded r
                      ∧ stars e = stars r ∧ forks e = forks r)
        [agent_repo "o/r"; bare_repo "o/s" "AI" None] out.
Proof.
  eexists _, _. split; [vm_compute; reflexivity|].
  eapply (@enrichBatch_keeps_extractor_fields answering
           [agent_repo "o/r"; bare_repo "o/s" "AI" None] (@initial_state answering tt)).
  vm_compute. reflexivity.
Defined.

Ltac ordinary_keys :=
  repeat (apply Forall_cons; split;
          [split; [intros H; repeat (apply elem_of_cons in H as [H|H]; [discriminate H|]);
                   by apply elem_of_nil in H
                  |by right]|]);
  apply Forall_nil_2.

Lemma language_stats_count_every_record_witness :
  let repos := [agent_repo "o/r"; untagged_repo; bare_repo "o/s" "AI" (Some "Rust");
                agent_repo "o/t"] in
  NoDup (map fst (getLanguageStats repos))
  ∧ total_count (getLanguageStats repos) = 4
  ∧ ∀ lang, Obj.get (getLanguageStats repos) lang
            = if (filed_under language_key lang repos =? 0)%nat then None
              else Some (Z.of_nat (filed_under language_key lang repos)).
Proof.
  apply (language_stats_count_every_record
           [agent_repo "o/r"; untagged_repo; bare_repo "o/s" "AI" (Some "Rust");
            agent_repo "o/t"]).
  ordinary_keys.
Defined.


Lemma top_keywords_are_ranked_by_frequency_witness :
  let repos := [scored (agent_repo "o/r") 8 ["agent"; "AI"]; scored (agent_repo "o/s") 5 ["AI"]] in
  let matched := ["agent"; "AI"; "AI"] in
  NoDup (RadarFormatter.getTopKeywords repos)
  ∧ (∀ keyword, keyword ∈ RadarFormatter.getTopKeywords repos ↔ keyword ∈ matched)
  ∧ StronglySorted
      (λ a b, (filed_under id b matched ≤ filed_under id a matched)%nat)
      (RadarFormatter.getTopKeywords repos).
Proof.
  apply (top_keywords_are_ranked_by_frequency
           [scored (agent_repo "o/r") 8 ["agent"; "AI"]; scored (agent_repo "o/s") 5 ["AI"]]).
  ordinary_keys.
Defined.

(** ** Enrichment in a world that answers *)

